(** * SentinelAI: the incident table, the playback controller, the analysis
      client and the application state machine, embedded in Rocq.

    The development follows the layout of the repository:
    - [JS]            the few platform operations the code relies on
                      (string joins, [Array.prototype.sort], number printing);
    - [Types]         types.ts;
    - [IncidentTable] src/components/IncidentTable.tsx;
    - [VideoPlayer]   src/components/VideoPlayer.tsx, with
                      [VideoPlayerDisplay] for what its controls display;
    - [GeminiService] src/services/geminiService.ts;
    - [App]           src/App.tsx.
    Definitions come first, the properties after them. *)

From Stdlib Require Import List String Ascii Bool Lia.
From Stdlib Require Import ZArith QArith Qabs Qminmax Qround.
From Stdlib Require Import Sorted Permutation Finite.
From Stdlib Require Import DecimalString DecimalNat DecimalZ.
Import ListNotations.

Set Implicit Arguments.
Set Warnings "-register-all".
Close Scope Q_scope.
Open Scope string_scope.
Open Scope list_scope.

(* ================================================================= *)
(** ** Platform operations *)

Module JS.

(** A line feed, and the double quote of the CSV description field. *)
Definition LF : string := String (ascii_of_nat 10) EmptyString.
Definition DQUOTE : string := String (ascii_of_nat 34) EmptyString.

(** [Array.prototype.join] on an array of strings. *)
Fixpoint join (sep : string) (l : list string) : string :=
  match l with
  | [] => EmptyString
  | [x] => x
  | x :: l' => (x ++ sep ++ join sep l')%string
  end.

(** [String.prototype.startsWith]. *)
Definition startsWith (s p : string) : bool := String.prefix p s.

(** [String.prototype.includes]: does [p] occur somewhere in [s]? *)
Fixpoint includes (s p : string) : bool :=
  String.prefix p s ||
  match s with
  | EmptyString => false
  | String _ s' => includes s' p
  end.

(** Truthiness of a string: every string but the empty one. *)
Definition truthy_string (s : string) : bool :=
  match s with EmptyString => false | _ => true end.

(** [a || b] on strings. *)
Definition or_string (a b : string) : string :=
  if truthy_string a then a else b.

(** Number-to-string conversion of an array index and of an integer
    millisecond clock reading, as a template literal performs it. *)
Definition string_of_index (i : nat) : string :=
  NilEmpty.string_of_uint (Nat.to_uint i).
Definition string_of_integer (z : Z) : string :=
  NilEmpty.string_of_int (Z.to_int z).

(** [Array.prototype.sort(cmp)].  ECMAScript requires the sort to be
    stable and, for a consistent comparator, fixes the result; the
    algorithm is left to the engine.  It is modelled by a stable insertion
    sort: an element moves right past [y] only when [cmp x y > 0]. *)
Section Sort.
Variable A : Type.
Variable cmp : A -> A -> Z.

Fixpoint insert (x : A) (l : list A) : list A :=
  match l with
  | [] => [x]
  | y :: l' => if (0 <? cmp x y)%Z then y :: insert x l' else x :: l
  end.

Definition sort (l : list A) : list A := fold_right insert [] l.
End Sort.

(** A JavaScript [number] as far as the player needs it: not-a-number or
    a finite value. *)
Inductive number : Type :=
| NaN
| Num (q : Q).

Definition isNaN (n : number) : bool :=
  match n with NaN => true | Num _ => false end.

(** [x < y] on finite numbers. *)
Definition Qltb (x y : Q) : bool := negb (Qle_bool y x).

End JS.

(* ================================================================= *)
(** ** types.ts *)

Module Types.

Inductive Severity : Type := LOW | MEDIUM | HIGH.

(** The string value of each enum member. *)
Definition Severity_value (s : Severity) : string :=
  match s with
  | LOW => "Low"
  | MEDIUM => "Medium"
  | HIGH => "High"
  end.

(** [seconds] is the integer second mark of the response schema. *)
Record Incident : Type := mkIncident {
  id : string;
  timestamp : string;
  seconds : Z;
  severity : Severity;
  description : string
}.

Inductive AppState : Type := UPLOAD | ANALYZING | RESULTS | ERROR.

Record FilterState : Type := mkFilterState {
  filter_low : bool;
  filter_medium : bool;
  filter_high : bool
}.

(** [filters[sev]] *)
Definition filter_get (filters : FilterState) (sev : Severity) : bool :=
  match sev with
  | LOW => filter_low filters
  | MEDIUM => filter_medium filters
  | HIGH => filter_high filters
  end.

(** [{ ...filters, [sev]: v }] *)
Definition filter_set (filters : FilterState) (sev : Severity) (v : bool)
  : FilterState :=
  match sev with
  | LOW => mkFilterState v (filter_medium filters) (filter_high filters)
  | MEDIUM => mkFilterState (filter_low filters) v (filter_high filters)
  | HIGH => mkFilterState (filter_low filters) (filter_medium filters) v
  end.

Definition all_true : FilterState := mkFilterState true true true.

End Types.

(* ================================================================= *)
(** ** src/components/IncidentTable.tsx *)

Module IncidentTable.
Import JS Types.

(** [incidents.filter(inc => filters[inc.severity])
             .sort((a, b) => a.seconds - b.seconds)] *)
Definition by_seconds (a b : Incident) : Z := (seconds a - seconds b)%Z.

Definition visible (filters : FilterState) (inc : Incident) : bool :=
  filter_get filters (severity inc).

Definition filteredIncidents (incidents : list Incident)
    (filters : FilterState) : list Incident :=
  sort by_seconds (filter (visible filters) incidents).

(** [Math.abs(currentTime - inc.seconds) < 3] *)
Definition near (currentTime : Q) (inc : Incident) : bool :=
  Qltb (Qabs (currentTime - inject_Z (seconds inc))%Q) 3%Q.

(** [incidents.find(inc => ...)?.id] *)
Definition activeIncident (incidents : list Incident) (currentTime : Q)
  : option Incident :=
  find (near currentTime) incidents.

Definition activeIncidentId (incidents : list Incident) (currentTime : Q)
  : option string :=
  option_map id (activeIncident incidents currentTime).

(** The row highlight: [activeIncidentId === incident.id]. *)
Definition isActive (incidents : list Incident) (currentTime : Q)
    (incident : Incident) : bool :=
  match activeIncidentId incidents currentTime with
  | Some i => String.eqb i (id incident)
  | None => false
  end.

(** [handleExportCSV]: the text put into the downloaded blob. *)
Definition headers : list string := ["Timestamp"; "Severity"; "Description"].

Definition csv_row (inc : Incident) : list string :=
  [timestamp inc; Severity_value (severity inc);
   (DQUOTE ++ description inc ++ DQUOTE)%string].

Definition handleExportCSV (incidents : list Incident)
    (filters : FilterState) : string :=
  let rows := map csv_row (filteredIncidents incidents filters) in
  join LF (join "," headers :: map (fun r => join "," r) rows).

Definition download_name : string := "surveillance_report.csv".

(** [handleCopy]: the text written to the clipboard. *)
Definition copy_line (inc : Incident) : string :=
  ("[" ++ timestamp inc ++ "] " ++ Severity_value (severity inc) ++ ": "
       ++ description inc)%string.

Definition handleCopy (incidents : list Incident) (filters : FilterState)
  : string :=
  join LF (map copy_line (filteredIncidents incidents filters)).

(** A filter button: [onFilterChange({ ...filters, [sev]: !filters[sev] })] *)
Definition toggle (filters : FilterState) (sev : Severity) : FilterState :=
  filter_set filters sev (negb (filter_get filters sev)).

End IncidentTable.

(* ================================================================= *)
(** ** src/components/VideoPlayer.tsx *)

Module VideoPlayer.
Import JS Types.

(** The platform's video element, as far as the component touches it.
    [el_duration] is not-a-number until the media metadata is known. *)
Record MediaElement : Type := mkMedia {
  el_currentTime : Q;
  el_duration : number;
  el_paused : bool;
  el_muted : bool
}.

(** A freshly created element. *)
Definition fresh_element : MediaElement := mkMedia 0 NaN true false.

(** Assigning [currentTime] makes the element seek; the element keeps the
    position within [0, duration] once the duration is known. *)
Definition clamp (d t : Q) : Q := Qmax 0 (Qmin d t).

Definition set_currentTime (t : Q) (el : MediaElement) : MediaElement :=
  match el_duration el with
  | Num d => mkMedia (clamp d t) (el_duration el) (el_paused el) (el_muted el)
  | NaN => mkMedia t (el_duration el) (el_paused el) (el_muted el)
  end.

(** [play()]: playback starts unless the platform's autoplay policy blocks
    the request ([allowed = false]); the rejection is caught and logged. *)
Definition play (allowed : bool) (el : MediaElement) : MediaElement :=
  if allowed
  then mkMedia (el_currentTime el) (el_duration el) false (el_muted el)
  else el.

Definition pause (el : MediaElement) : MediaElement :=
  mkMedia (el_currentTime el) (el_duration el) true (el_muted el).

Definition set_muted (m : bool) (el : MediaElement) : MediaElement :=
  mkMedia (el_currentTime el) (el_duration el) (el_paused el) m.

(** The [seekTo] prop: [{ time, timestamp }], an object, so it also has an
    identity ([seek_ref], its address); [null] is [None]. *)
Record SeekRequest : Type := mkSeek {
  seek_ref : nat;
  seek_time : Q;
  seek_timestamp : Z
}.

(** [Object.is] on two values of the prop, the comparison React applies to
    the dependencies of an effect: objects are compared by identity. *)
Definition Object_is (a b : option SeekRequest) : bool :=
  match a, b with
  | None, None => true
  | Some x, Some y => Nat.eqb (seek_ref x) (seek_ref y)
  | _, _ => false
  end.

(** The calls the component makes on its props. *)
Inductive upcall : Type :=
| onTimeUpdate (time : Q)
| onDurationChange (duration : number).

(** The component: [videoRef.current], its four state variables and the
    dependency list of the effect as of the last commit ([None] before the
    first one). *)
Record Player : Type := mkPlayer {
  videoRef : option MediaElement;
  isPlaying : bool;
  isMuted : bool;
  duration : number;
  showControls : bool;
  committed_seekTo : option (option SeekRequest)
}.

Definition with_video (el : MediaElement) (p : Player) : Player :=
  mkPlayer (Some el) (isPlaying p) (isMuted p) (duration p) (showControls p)
           (committed_seekTo p).

Definition setIsPlaying (b : bool) (p : Player) : Player :=
  mkPlayer (videoRef p) b (isMuted p) (duration p) (showControls p)
           (committed_seekTo p).

Definition setIsMuted (b : bool) (p : Player) : Player :=
  mkPlayer (videoRef p) (isPlaying p) b (duration p) (showControls p)
           (committed_seekTo p).

Definition setDuration (d : number) (p : Player) : Player :=
  mkPlayer (videoRef p) (isPlaying p) (isMuted p) d (showControls p)
           (committed_seekTo p).

Definition set_committed (s : option SeekRequest) (p : Player) : Player :=
  mkPlayer (videoRef p) (isPlaying p) (isMuted p) (duration p)
           (showControls p) (Some s).

(** The state before the first commit: [useRef(null)], [useState(false)],
    [useState(false)], [useState(0)], [useState(false)]. *)
Definition initial : Player :=
  mkPlayer None false false (Num 0) false None.

(** The body of [useEffect(() => { ... }, [seekTo])]. *)
Definition seekTo_effect (allowed : bool) (seekTo : option SeekRequest)
    (p : Player) : Player :=
  match seekTo, videoRef p with
  | Some req, Some el =>
      let el1 := set_currentTime (seek_time req) el in
      if el_paused el1
      then setIsPlaying true (with_video (play allowed el1) p)
      else setIsPlaying true (with_video el1 p)
  | _, _ => p
  end.

(** React runs the effect after the first commit and after every commit
    whose dependency differs from the previous one by [Object.is]. *)
Definition effect_due (p : Player) (seekTo : option SeekRequest) : bool :=
  match committed_seekTo p with
  | None => true
  | Some old => negb (Object_is old seekTo)
  end.

(** One render and commit of the component with the given [seekTo] prop.
    The first commit attaches the element to [videoRef]. *)
Definition commit (allowed : bool) (seekTo : option SeekRequest)
    (p : Player) : Player :=
  let p1 := match videoRef p with
            | None => with_video fresh_element p
            | Some _ => p
            end in
  let p2 := if effect_due p seekTo then seekTo_effect allowed seekTo p1
            else p1 in
  set_committed seekTo p2.

Definition togglePlay (allowed : bool) (p : Player) : Player :=
  match videoRef p with
  | Some el =>
      if el_paused el
      then setIsPlaying true (with_video (play allowed el) p)
      else setIsPlaying false (with_video (pause el) p)
  | None => p
  end.

Definition handleTimeUpdate (p : Player) : Player * list upcall :=
  match videoRef p with
  | Some el => (p, [onTimeUpdate (el_currentTime el)])
  | None => (p, [])
  end.

Definition handleLoadedMetadata (p : Player) : Player * list upcall :=
  match videoRef p with
  | Some el =>
      let d := el_duration el in
      (setDuration d p, [onDurationChange d])
  | None => (p, [])
  end.

(** [time] is the parsed value of the range input. *)
Definition handleSeek (time : Q) (p : Player) : Player * list upcall :=
  match videoRef p with
  | Some el => (with_video (set_currentTime time el) p, [onTimeUpdate time])
  | None => (p, [])
  end.

(** [videoRef.current.currentTime += seconds] *)
Definition skip (seconds : Q) (p : Player) : Player * list upcall :=
  match videoRef p with
  | Some el =>
      (with_video (set_currentTime (el_currentTime el + seconds) el) p, [])
  | None => (p, [])
  end.

(** The mute button and [onEnded]. *)
Definition toggleMute (p : Player) : Player :=
  match videoRef p with
  | Some el => setIsMuted (negb (isMuted p))
                 (with_video (set_muted (negb (isMuted p)) el) p)
  | None => p
  end.

Definition handleEnded (p : Player) : Player := setIsPlaying false p.

(** [max={duration || 100}] of the range input. *)
Definition range_max (d : number) : Q :=
  match d with
  | NaN => 100
  | Num q => if Qeq_bool q 0 then 100 else q
  end.

(** What the platform does to the element: the metadata arrive. *)
Definition metadata_loaded (d : number) (p : Player) : Player :=
  match videoRef p with
  | Some el =>
      with_video (mkMedia (el_currentTime el) d (el_paused el) (el_muted el)) p
  | None => p
  end.

End VideoPlayer.

(* ================================================================= *)
(** ** src/services/geminiService.ts *)

Module GeminiService.
Import JS Types.

(** A browser [File]: name, declared media type, size in bytes. *)
Record File : Type := mkFile {
  file_name : string;
  file_type : string;
  file_size : Z
}.

(** A parsed JSON document. *)
Inductive json : Type :=
| JNull
| JBool (b : bool)
| JNumber (q : Q)
| JString (s : string)
| JArray (items : list json)
| JObject (fields : list (string * json)).

(** A JavaScript value read out of a document: [None] is [undefined]. *)
Definition value : Type := option json.

Definition truthy (v : value) : bool :=
  match v with
  | None | Some JNull => false
  | Some (JBool b) => b
  | Some (JNumber q) => negb (Qeq_bool q 0)
  | Some (JString s) => truthy_string s
  | Some (JArray _) | Some (JObject _) => true
  end.

(** [a || b] where [b] is a document value. *)
Definition or_value (a : value) (b : json) : json :=
  match a with
  | Some v => if truthy a then v else b
  | None => b
  end.

Fixpoint lookup (k : string) (fields : list (string * json)) : value :=
  match fields with
  | [] => None
  | (k', v) :: rest => if String.eqb k k' then Some v else lookup k rest
  end.

(** What the program does: the effects it performs on the outside world,
    in order, and how it ends. *)
Inductive effect : Type :=
| ReadFile (file : File)
| GenerateContent (mimeType : string) (data : option string).

Inductive outcome (A : Type) : Type :=
| Returned (a : A)
| Threw (message : string).
Arguments Threw {A} message.

Definition M (A : Type) : Type := list effect * outcome A.

Definition ret {A} (a : A) : M A := ([], Returned a).
Definition throw {A} (message : string) : M A := ([], Threw message).
Definition perform {A} (e : effect) (r : outcome A) : M A := ([e], r).

Definition bind {A B} (m : M A) (k : A -> M B) : M B :=
  match m with
  | (t, Returned a) => let (t', r) := k a in (t ++ t', r)
  | (t, Threw e) => (t, Threw e)
  end.

(** [try { m } catch (error) { h error.message }] *)
Definition try_catch {A} (m : M A) (h : string -> M A) : M A :=
  match m with
  | (t, Threw e) => let (t', r) := h e in (t ++ t', r)
  | (t, Returned a) => (t, Returned a)
  end.

Notation "x <- m ;; k" := (bind m (fun x => k))
  (at level 61, m at next level, right associativity).

(** The environment of one call: the module constant [API_KEY], the file
    reader, the hosted model, the JSON parser and the clock.
    - [readAsDataURL f] is the data URL the reader produces, [None] when it
      fires [onerror];
    - [generateContent mime data] is the text of the model's response, or
      the message of the error the SDK throws;
    - [JSON_parse text] is the parsed document, or the message of the
      [SyntaxError];
    - [Date_now i] is the clock reading taken while incident [i] is built. *)
Record World : Type := mkWorld {
  API_KEY : string;
  readAsDataURL : File -> option string;
  generateContent : string -> option string -> string + string;
  JSON_parse : string -> string + json;
  Date_now : nat -> Z
}.

(** [s.split(',')] *)
Fixpoint split_comma (s : string) : list string :=
  match s with
  | EmptyString => [EmptyString]
  | String a s' =>
      if Ascii.eqb a ","%char then EmptyString :: split_comma s'
      else match split_comma s' with
           | [] => [String a EmptyString]
           | x :: rest => String a x :: rest
           end
  end.

(** [fileToGenerativePart]: the part of the data URL after its prefix. *)
Definition fileToGenerativePart (w : World) (file : File)
  : M (option string) :=
  match readAsDataURL w file with
  | Some base64String =>
      perform (ReadFile file)
        (Returned (nth_error (split_comma base64String) 1))
  | None => perform (ReadFile file) (Threw "Failed to read file")
  end.

(** [model.generateContent([...])], then [response.text()]. *)
Definition generate (w : World) (mimeType : string) (data : option string)
  : M string :=
  perform (GenerateContent mimeType data)
    match generateContent w mimeType data with
    | inl message => Threw message
    | inr text => Returned text
    end.

(** A property read [v.k]; reading a property of [null] throws. *)
Definition TypeError_null (k : string) : string :=
  "Cannot read properties of null (reading '" ++ k ++ "')".

Definition get (v : json) (k : string) : M value :=
  match v with
  | JNull => throw (TypeError_null k)
  | JObject fields => ret (lookup k fields)
  | _ => ret None
  end.

(** An incident as the client assembles it: the four fields are copied
    from the document unchecked. *)
Record RawIncident : Type := mkRaw {
  raw_id : string;
  raw_timestamp : value;
  raw_seconds : value;
  raw_severity : value;
  raw_description : value
}.

Record AnalysisResult : Type := mkResult {
  summary : json;
  incidents : list RawIncident
}.

(** [`inc-${index}-${Date.now()}`] *)
Definition incident_id (w : World) (index : nat) : string :=
  "inc-" ++ string_of_index index ++ "-"
         ++ string_of_integer (Date_now w index).

(** The callback of [parsedData.incidents.map((inc, index) => ...)]. *)
Definition build_incident (w : World) (index : nat) (inc : json)
  : M RawIncident :=
  timestamp <- get inc "timestamp" ;;
  seconds <- get inc "seconds" ;;
  severity <- get inc "severity" ;;
  description <- get inc "description" ;;
  ret (mkRaw (incident_id w index) timestamp seconds severity description).

Fixpoint map_incidents (w : World) (index : nat) (items : list json)
  : M (list RawIncident) :=
  match items with
  | [] => ret []
  | inc :: rest =>
      r <- build_incident w index inc ;;
      rs <- map_incidents w (S index) rest ;;
      ret (r :: rs)
  end.

(** From the response text to the result: the part of the [try] block
    after the response has arrived. *)
Definition respond (w : World) (text : string) : M AnalysisResult :=
  if negb (truthy_string text) then throw "No response from Gemini API"
  else
    match JSON_parse w text with
    | inl message => throw message
    | inr parsedData =>
        s <- get parsedData "summary" ;;
        if negb (truthy s) then throw "Invalid response format from Gemini API"
        else
          i <- get parsedData "incidents" ;;
          match i with
          | Some (JArray items) =>
              incs <- map_incidents w 0 items ;;
              ret (mkResult (or_value s (JString "Analysis complete.")) incs)
          | _ => throw "Invalid response format from Gemini API"
          end
    end.

(** The [catch] block: the message of the error it throws. *)
Definition rethrown (message : string) : string :=
  if includes message "API_KEY_INVALID"
  then "Invalid API key. Please check your Gemini API key configuration."
  else if includes message "quota"
  then "API quota exceeded. Please try again later."
  else if includes message "Failed to read file"
  then "Failed to read the video file. Please try again."
  else or_string message
         "Failed to analyze video. Please try again or check the file format.".

Definition maxSize : Z := 50 * 1024 * 1024.

Definition analyzeVideoWithGemini (w : World) (file : File)
  : M AnalysisResult :=
  if negb (truthy_string (API_KEY w))
  then throw "API Key not found in environment variables"
  else if negb (startsWith (file_type file) "video/")
  then throw "Invalid file type. Please upload a video file."
  else if (file_size file >? maxSize)%Z
  then throw "File size exceeds 50MB limit. Please use a smaller video."
  else
    try_catch
      (videoBase64 <- fileToGenerativePart w file ;;
       text <- generate w (file_type file) videoBase64 ;;
       respond w text)
      (fun message => throw (rethrown message)).

(** The typed view of an assembled incident, for a document that follows
    the response schema of the request: [timestamp] and [description]
    strings, [seconds] an integer, [severity] one of the three enum
    values. *)
Definition Severity_of_string (s : string) : option Severity :=
  if String.eqb s "Low" then Some LOW
  else if String.eqb s "Medium" then Some MEDIUM
  else if String.eqb s "High" then Some HIGH
  else None.

Definition integer_of (q : Q) : option Z :=
  let r := Qred q in
  if Pos.eqb (Qden r) 1 then Some (Qnum r) else None.

Definition as_Incident (r : RawIncident) : option Incident :=
  match raw_timestamp r, raw_seconds r, raw_severity r, raw_description r with
  | Some (JString ts), Some (JNumber q), Some (JString sev), Some (JString d) =>
      match integer_of q, Severity_of_string sev with
      | Some z, Some sv => Some (mkIncident (raw_id r) ts z sv d)
      | _, _ => None
      end
  | _, _, _, _ => None
  end.

(** The incidents handed to the views, when every one of them follows
    the schema. *)
Fixpoint typed_incidents (rs : list RawIncident) : option (list Incident) :=
  match rs with
  | [] => Some []
  | r :: rest =>
      match as_Incident r, typed_incidents rest with
      | Some inc, Some incs => Some (inc :: incs)
      | _, _ => None
      end
  end.

End GeminiService.

(* ================================================================= *)
(** ** src/App.tsx *)

Module App.
Import JS Types VideoPlayer GeminiService.

(** The state variables of the component, followed by what lies outside
    React: the object URLs the browser holds for the page (created by
    [URL.createObjectURL], released only by [URL.revokeObjectURL]), the
    number of objects allocated so far, and the file captured by a
    [startAnalysis] call that is suspended at its [await]. *)
Record Model : Type := mkModel {
  appState : AppState;
  file : option File;
  analysisResult : option AnalysisResult;
  errorMsg : string;
  videoUrl : string;
  currentVideoTime : Q;
  videoDuration : number;
  seekToRequest : option SeekRequest;
  filters : FilterState;
  objectURLs : list string;
  allocated : nat;
  pending : option File
}.

Definition initial : Model :=
  mkModel UPLOAD None None "" "" 0 (Num 0) None all_true [] 0 None.

Definition setAppState (v : AppState) (s : Model) : Model :=
  mkModel v (file s) (analysisResult s) (errorMsg s) (videoUrl s)
    (currentVideoTime s) (videoDuration s) (seekToRequest s) (filters s)
    (objectURLs s) (allocated s) (pending s).

Definition setFile (v : option File) (s : Model) : Model :=
  mkModel (appState s) v (analysisResult s) (errorMsg s) (videoUrl s)
    (currentVideoTime s) (videoDuration s) (seekToRequest s) (filters s)
    (objectURLs s) (allocated s) (pending s).

Definition setAnalysisResult (v : option AnalysisResult) (s : Model) : Model :=
  mkModel (appState s) (file s) v (errorMsg s) (videoUrl s)
    (currentVideoTime s) (videoDuration s) (seekToRequest s) (filters s)
    (objectURLs s) (allocated s) (pending s).

Definition setErrorMsg (v : string) (s : Model) : Model :=
  mkModel (appState s) (file s) (analysisResult s) v (videoUrl s)
    (currentVideoTime s) (videoDuration s) (seekToRequest s) (filters s)
    (objectURLs s) (allocated s) (pending s).

Definition setVideoUrl (v : string) (s : Model) : Model :=
  mkModel (appState s) (file s) (analysisResult s) (errorMsg s) v
    (currentVideoTime s) (videoDuration s) (seekToRequest s) (filters s)
    (objectURLs s) (allocated s) (pending s).

Definition setCurrentVideoTime (v : Q) (s : Model) : Model :=
  mkModel (appState s) (file s) (analysisResult s) (errorMsg s) (videoUrl s)
    v (videoDuration s) (seekToRequest s) (filters s)
    (objectURLs s) (allocated s) (pending s).

Definition setVideoDuration (v : number) (s : Model) : Model :=
  mkModel (appState s) (file s) (analysisResult s) (errorMsg s) (videoUrl s)
    (currentVideoTime s) v (seekToRequest s) (filters s)
    (objectURLs s) (allocated s) (pending s).

Definition setSeekToRequest (v : option SeekRequest) (s : Model) : Model :=
  mkModel (appState s) (file s) (analysisResult s) (errorMsg s) (videoUrl s)
    (currentVideoTime s) (videoDuration s) v (filters s)
    (objectURLs s) (allocated s) (pending s).

Definition setFilters (v : FilterState) (s : Model) : Model :=
  mkModel (appState s) (file s) (analysisResult s) (errorMsg s) (videoUrl s)
    (currentVideoTime s) (videoDuration s) (seekToRequest s) v
    (objectURLs s) (allocated s) (pending s).

Definition set_pending (v : option File) (s : Model) : Model :=
  mkModel (appState s) (file s) (analysisResult s) (errorMsg s) (videoUrl s)
    (currentVideoTime s) (videoDuration s) (seekToRequest s) (filters s)
    (objectURLs s) (allocated s) v.

(** [URL.createObjectURL(file)]: the browser mints a URL not handed out
    before and keeps the resource alive under it. *)
Definition createObjectURL (s : Model) : string * Model :=
  let url := ("blob:" ++ string_of_index (allocated s))%string in
  (url,
   mkModel (appState s) (file s) (analysisResult s) (errorMsg s) (videoUrl s)
     (currentVideoTime s) (videoDuration s) (seekToRequest s) (filters s)
     (url :: objectURLs s) (S (allocated s)) (pending s)).

(** An object literal evaluated by a handler gets an address of its own. *)
Definition new_object (s : Model) : nat * Model :=
  (allocated s,
   mkModel (appState s) (file s) (analysisResult s) (errorMsg s) (videoUrl s)
     (currentVideoTime s) (videoDuration s) (seekToRequest s) (filters s)
     (objectURLs s) (S (allocated s)) (pending s)).

Definition maxSize : Z := 75 * 1024 * 1024.

Definition validateAndSetFile (f : File) (s : Model) : Model :=
  if negb (startsWith (file_type f) "video/")
  then setErrorMsg "Please upload a valid video file (MP4, MOV, WebM)." s
  else if (file_size f >? maxSize)%Z
  then setErrorMsg "File size exceeds 75MB limit." s
  else
    let s1 := setFile (Some f) s in
    let (url, s2) := createObjectURL s1 in
    setErrorMsg "" (setVideoUrl url s2).

(** [startAnalysis] up to its [await]: nothing happens without a file;
    otherwise the state becomes ANALYZING and the call is suspended. *)
Definition startAnalysis (s : Model) : Model :=
  match file s with
  | None => s
  | Some f => set_pending (Some f) (setAppState ANALYZING s)
  end.

(** [startAnalysis] from its [await] on, once the promise of
    [analyzeVideoWithGemini(file)] has settled with [r]. *)
Definition startAnalysis_resume (r : outcome AnalysisResult) (s : Model)
  : Model :=
  match r with
  | Returned result =>
      set_pending None (setAppState RESULTS (setAnalysisResult (Some result) s))
  | Threw message =>
      set_pending None
        (setErrorMsg
           (or_string message "An unexpected error occurred during analysis.")
           (setAppState ERROR s))
  end.

Definition handleReset (s : Model) : Model :=
  setSeekToRequest None
    (setErrorMsg ""
       (setAnalysisResult None
          (setVideoUrl "" (setFile None (setAppState UPLOAD s))))).

(** The "Go Back" button of the error view. *)
Definition goBack (s : Model) : Model := setAppState UPLOAD s.

(** [onIncidentClick]:
    [setSeekToRequest({ time: seconds, timestamp: Date.now() })] *)
Definition onIncidentClick (seconds : Z) (now : Z) (s : Model) : Model :=
  let (ref, s1) := new_object s in
  setSeekToRequest (Some (mkSeek ref (inject_Z seconds) now)) s1.

(** The calls of the player arrive at [setCurrentVideoTime] and
    [setVideoDuration]. *)
Definition deliver (u : upcall) (s : Model) : Model :=
  match u with
  | onTimeUpdate t => setCurrentVideoTime t s
  | onDurationChange d => setVideoDuration d s
  end.

(** What can happen to the application. *)
Inductive event : Type :=
| SelectFile (f : File)
| ClickAnalyze
| ClickCancel
| AnalysisSettled (w : World)
| ClickExit
| ClickIncident (seconds now : Z)
| ChangeFilters (f : FilterState)
| PlayerCall (u : upcall)
| ClickTryAgain
| ClickGoBack.

(** Each screen offers the handlers of its own controls only; the
    analyzing screen has no control, and the suspended call resumes with
    the outcome of the analysis of the captured file. *)
Inductive step : Model -> event -> Model -> Prop :=
| step_select s f :
    appState s = UPLOAD -> step s (SelectFile f) (validateAndSetFile f s)
| step_analyze s :
    appState s = UPLOAD -> step s ClickAnalyze (startAnalysis s)
| step_cancel s :
    appState s = UPLOAD -> file s <> None ->
    step s ClickCancel (handleReset s)
| step_settled s w f :
    appState s = ANALYZING -> pending s = Some f ->
    step s (AnalysisSettled w)
      (startAnalysis_resume (snd (analyzeVideoWithGemini w f)) s)
| step_exit s :
    appState s = RESULTS -> step s ClickExit (handleReset s)
| step_incident s seconds now :
    appState s = RESULTS ->
    step s (ClickIncident seconds now) (onIncidentClick seconds now s)
| step_filters s f :
    appState s = RESULTS -> step s (ChangeFilters f) (setFilters f s)
| step_player s u :
    appState s = RESULTS -> step s (PlayerCall u) (deliver u s)
| step_try_again s :
    appState s = ERROR -> step s ClickTryAgain (handleReset s)
| step_go_back s :
    appState s = ERROR -> step s ClickGoBack (goBack s).

Inductive reachable : Model -> Prop :=
| reach_initial : reachable initial
| reach_step s e s' : reachable s -> step s e s' -> reachable s'.

(** The transitions between screens that the specification lists. *)
Definition listed (a b : AppState) : bool :=
  match a, b with
  | UPLOAD, UPLOAD | UPLOAD, ANALYZING
  | ANALYZING, RESULTS | ANALYZING, ERROR
  | RESULTS, RESULTS | RESULTS, UPLOAD
  | ERROR, UPLOAD => true
  | _, _ => false
  end.

End App.

(* ================================================================= *)
(** ** src/components/VideoPlayer.tsx: what the controls display *)

Module VideoPlayerDisplay.
Import JS Types VideoPlayer.

(** The value of an arithmetic expression that may divide by zero:
    not-a-number, an infinity, or a finite value. *)
Inductive extended : Type :=
| ENaN
| EInfinity (negative : bool)
| EFinite (q : Q).

(** [(incident.seconds / duration) * 100], with [duration] the state
    variable of the player. *)
Definition leftPos (seconds : Z) (duration : number) : extended :=
  match duration with
  | NaN => ENaN
  | Num d =>
      if Qeq_bool d 0
      then (if Z.eqb seconds 0 then ENaN else EInfinity (seconds <? 0)%Z)
      else EFinite (inject_Z seconds / d * 100)
  end.

(** One timeline marker: [if (isNaN(leftPos)) return null;], otherwise a
    dot at [left: leftPos%]. *)
Definition marker (seconds : Z) (duration : number) : option extended :=
  match leftPos seconds duration with
  | ENaN => None
  | pos => Some pos
  end.

Definition markers (incidents : list Incident) (duration : number)
  : list (option extended) :=
  map (fun incident => marker (seconds incident) duration) incidents.

(** [Math.trunc], and the remainder [x % y], which takes the sign of [x]. *)
Definition trunc (q : Q) : Z :=
  if Qle_bool 0 q then Qfloor q else Qceiling q.

Definition remainder (x y : Q) : Q := x - y * inject_Z (trunc (x / y)).

(** [s.padStart(2, '0')] *)
Definition padStart2 (s : string) : string :=
  match s with
  | EmptyString => "00"
  | String c EmptyString => String "0" (String c EmptyString)
  | _ => s
  end.

(** [formatTime(time)]. Only not-a-number is guarded. For an infinite
    time [time / 60] is that infinity and [time % 60] is not-a-number,
    [Math.floor] keeps both, and their texts, longer than two characters,
    are not padded. *)
Definition formatTime (time : extended) : string :=
  match time with
  | ENaN => "00:00"
  | EInfinity negative =>
      ((if negative then "-Infinity" else "Infinity") ++ ":" ++ "NaN")%string
  | EFinite t =>
      let minutes := Qfloor (t / 60) in
      let seconds := Qfloor (remainder t 60) in
      (padStart2 (string_of_integer minutes) ++ ":"
         ++ padStart2 (string_of_integer seconds))%string
  end.

End VideoPlayerDisplay.

(* ================================================================= *)
(** ** Vocabulary of the properties, and a sample session *)

Import JS Types IncidentTable VideoPlayer VideoPlayerDisplay.
Import GeminiService App.

(** The playback position lies strictly less than three seconds away from
    the incident's second mark. *)
Definition within_window (currentTime : Q) (inc : Incident) : Prop :=
  (Qabs (currentTime - inject_Z (seconds inc)) < 3)%Q.

(** One CSV row and one clipboard line, written out. *)
Definition csv_line (inc : Incident) : string :=
  timestamp inc ++ "," ++ Severity_value (severity inc) ++ ","
    ++ DQUOTE ++ description inc ++ DQUOTE.

Definition clipboard_line (inc : Incident) : string :=
  "[" ++ timestamp inc ++ "] " ++ Severity_value (severity inc) ++ ": "
      ++ description inc.

(** The line the specification describes for the clipboard. *)
Definition severity_first_line (inc : Incident) : string :=
  "[" ++ Severity_value (severity inc) ++ "] " ++ timestamp inc ++ ": "
      ++ description inc.

(** A mounted player whose element has loaded metadata of 100 seconds
    and stands at second 10. *)
Definition player_at_10 : Player :=
  fst (handleSeek 10
         (metadata_loaded (Num 100) (commit true None VideoPlayer.initial))).

(** The scenario of the specification: a 10 MB [video/mp4] file, and a
    service that answers with a summary and one High incident at 00:05. *)
Definition sample_file : File :=
  mkFile "cam.mp4" "video/mp4" (10 * 1024 * 1024).

Definition sample_document : json :=
  JObject [("summary", JString "ok");
           ("incidents",
            JArray [JObject [("timestamp", JString "00:05");
                             ("seconds", JNumber 5);
                             ("severity", JString "High");
                             ("description", JString "x")]])].

Definition sample_world : World :=
  mkWorld "key"
    (fun _ => Some "data:video/mp4;base64,AAAA")
    (fun _ _ => inr "response")
    (fun _ => inr sample_document)
    (fun _ => 1700000000000%Z).

Definition sample_selected : Model :=
  validateAndSetFile sample_file App.initial.
Definition sample_analyzing : Model := startAnalysis sample_selected.
Definition sample_results : Model :=
  startAnalysis_resume
    (snd (analyzeVideoWithGemini sample_world sample_file)) sample_analyzing.

(** [v.k] for a value that is not [null]. *)
Definition field (v : json) (k : string) : value :=
  match v with
  | JObject fields => lookup k fields
  | _ => None
  end.

(** The incidents the client assembles from the items of the document. *)
Fixpoint assembled (w : World) (index : nat) (items : list json)
  : list RawIncident :=
  match items with
  | [] => []
  | inc :: rest =>
      mkRaw (incident_id w index) (field inc "timestamp") (field inc "seconds")
        (field inc "severity") (field inc "description")
      :: assembled w (S index) rest
  end.

(** A video of 60 MB: small enough to be selected, too large to be
    analysed. *)
Definition sixty_megabytes : File :=
  mkFile "long.mp4" "video/mp4" (60 * 1024 * 1024).

(** How the call ends once the response text has arrived: the response is
    handled inside the [try] block, so what it throws passes through the
    [catch] block. *)
Definition handled (w : World) (text : string) : outcome AnalysisResult :=
  snd (try_catch (respond w text) (fun message => throw (rethrown message))).

(** The top-level shape the specification asks for: an object with a
    [summary] string and an [incidents] array. *)
Definition has_summary_string_and_incidents_array (doc : json) : bool :=
  match doc with
  | JObject fields =>
      match lookup "summary" fields, lookup "incidents" fields with
      | Some (JString _), Some (JArray _) => true
      | _, _ => false
      end
  | _ => false
  end.

(** The results screen of the sample session after the user has switched
    the Low filter off. *)
Definition sample_filtered : Model :=
  setFilters (toggle (filters sample_results) LOW) sample_results.

(** The playback position of a mounted player. *)
Definition position (p : Player) : option Q :=
  option_map el_currentTime (videoRef p).

(** What can happen to a mounted player: a commit with a [seekTo] prop,
    the handlers of its controls and of the element's events, and the
    element loading its metadata or advancing its clock by itself. *)
Inductive player_event : Type :=
| Commit (allowed : bool) (seekTo : option SeekRequest)
| ClickPlay (allowed : bool)
| TimeUpdate
| LoadedMetadata
| Scrub (time : Q)
| Skip (seconds : Q)
| ClickMute
| Ended
| MetadataArrives (d : number)
| ClockAdvances (t : Q).

Definition player_step (p : Player) (e : player_event) : Player :=
  match e with
  | Commit allowed seekTo => commit allowed seekTo p
  | ClickPlay allowed => togglePlay allowed p
  | TimeUpdate => fst (handleTimeUpdate p)
  | LoadedMetadata => fst (handleLoadedMetadata p)
  | Scrub time => fst (handleSeek time p)
  | Skip seconds => fst (skip seconds p)
  | ClickMute => toggleMute p
  | Ended => handleEnded p
  | MetadataArrives d => metadata_loaded d p
  | ClockAdvances t =>
      match videoRef p with
      | Some el =>
          with_video (mkMedia t (el_duration el) (el_paused el) (el_muted el)) p
      | None => p
      end
  end.

(** The number of line feeds in a text: one less than its number of
    lines. *)
Fixpoint count_LF (s : string) : nat :=
  match s with
  | EmptyString => 0
  | String c s' =>
      (if Ascii.eqb c (ascii_of_nat 10) then 1 else 0) + count_LF s'
  end.

(** A text without a comma. *)
Fixpoint no_comma (s : string) : bool :=
  match s with
  | EmptyString => true
  | String c s' => negb (Ascii.eqb c ","%char) && no_comma s'
  end.

(** Is the document [null]? *)
Definition json_is_null (doc : json) : bool :=
  match doc with JNull => true | _ => false end.

(** The error screen of a session with the 60 MB video. *)
Definition sample_error : Model :=
  startAnalysis_resume
    (snd (analyzeVideoWithGemini sample_world sixty_megabytes))
    (startAnalysis (validateAndSetFile sixty_megabytes App.initial)).

(** A run of the application: the events that lead from one state to
    another, the oldest first. *)
Inductive run : Model -> list event -> Model -> Prop :=
| run_nil s : run s [] s
| run_snoc s es s1 e s2 :
    run s es s1 -> step s1 e s2 -> run s (es ++ [e]) s2.

(** The events of the results screen that leave the screen shown. *)
Definition on_results_screen (e : event) : bool :=
  match e with
  | ClickIncident _ _ | ChangeFilters _ | PlayerCall _ => true
  | _ => false
  end.




(** A mounted player that has handled the metadata event of a video of
    100 seconds: its [duration] state is the element's duration. *)
Definition player_ready : Player :=
  fst (handleLoadedMetadata
         (metadata_loaded (Num 100) (commit true None VideoPlayer.initial))).

(* ================================================================= *)
(** * Properties *)

(* ----------------------------------------------------------------- *)
(** ** The stable sort *)

Section SortFacts.
Variable A : Type.
Variable key : A -> Z.

Let cmp (a b : A) : Z := (key a - key b)%Z.
Let le (a b : A) : Prop := (key a <= key b)%Z.
Let has (k : Z) (a : A) : bool := (key a =? k)%Z.

Lemma insert_perm x l : Permutation (x :: l) (insert cmp x l).
Proof.
  induction l as [|y l IH]; simpl; auto.
  destruct (0 <? cmp x y)%Z; auto.
  rewrite perm_swap. now constructor.
Qed.

Lemma sort_perm l : Permutation l (sort cmp l).
Proof.
  induction l as [|x l IH]; simpl; auto.
  rewrite <- insert_perm. now constructor.
Qed.

Lemma insert_hdrel x y l :
  le y x -> HdRel le y l -> HdRel le y (insert cmp x l).
Proof.
  intros Hyx Hl. destruct l as [|z l]; simpl.
  - now constructor.
  - destruct (0 <? cmp x z)%Z; constructor; auto.
    now inversion Hl.
Qed.

Lemma insert_sorted x l : Sorted le l -> Sorted le (insert cmp x l).
Proof.
  induction 1 as [|y l Hs IH Hhd]; simpl.
  - repeat constructor.
  - destruct (0 <? cmp x y)%Z eqn:E.
    + constructor; auto. apply insert_hdrel; auto.
      apply Z.ltb_lt in E. unfold le, cmp in *. lia.
    + apply Z.ltb_ge in E. constructor.
      * now constructor.
      * constructor. unfold le, cmp in *. lia.
Qed.

Lemma sort_sorted l : Sorted le (sort cmp l).
Proof.
  induction l as [|x l IH]; simpl; [constructor | now apply insert_sorted].
Qed.

(** Inserting [x] into a sorted list puts it in front of every element
    of the same key. *)
Lemma insert_filter k x l :
  Sorted le l ->
  filter (has k) (insert cmp x l) = filter (has k) (x :: l).
Proof.
  induction 1 as [|y l Hs IH Hhd]; [reflexivity|].
  cbn [insert]. destruct (0 <? cmp x y)%Z eqn:E; [|reflexivity].
  apply Z.ltb_lt in E. unfold cmp in E.
  cbn [filter] in *. rewrite IH.
  unfold has. destruct (key y =? k)%Z eqn:Ey, (key x =? k)%Z eqn:Ex;
    try reflexivity.
  apply Z.eqb_eq in Ey, Ex. lia.
Qed.

Lemma sort_stable k l : filter (has k) (sort cmp l) = filter (has k) l.
Proof.
  induction l as [|x l IH]; [reflexivity|].
  cbn [sort fold_right]. fold (sort cmp l).
  rewrite insert_filter by apply sort_sorted.
  cbn [filter]. now rewrite IH.
Qed.

(** The three properties determine the result: whatever stable sorting
    algorithm the engine runs, it returns the list the model returns. *)
Lemma sorted_stable_unique l1 l2 :
  Sorted le l1 -> Sorted le l2 ->
  (forall k, filter (has k) l1 = filter (has k) l2) ->
  l1 = l2.
Proof.
  assert (Hrefl : forall a, has (key a) a = true)
    by (intros a; apply Z.eqb_refl).
  assert (Hin : forall a l l', filter (has (key a)) l = a :: l' -> In a l).
  { intros a l l' E. apply (filter_In (has (key a)) a l).
    rewrite E. now left. }
  intros H1 H2.
  apply Sorted_StronglySorted in H1; [|intros a b c; unfold le; lia].
  apply Sorted_StronglySorted in H2; [|intros a b c; unfold le; lia].
  revert l2 H2. induction H1 as [|x l1 Hs1 IH Hall1]; intros l2 H2 Hf.
  - destruct l2 as [|y l2]; [reflexivity|].
    specialize (Hf (key y)). cbn [filter] in Hf.
    rewrite Hrefl in Hf. discriminate.
  - destruct H2 as [|y l2 Hs2 Hall2].
    + specialize (Hf (key x)). cbn [filter] in Hf.
      rewrite Hrefl in Hf. discriminate.
    + assert (Hxy : key x = key y).
      { pose proof (Hf (key x)) as Ex. pose proof (Hf (key y)) as Ey.
        cbn [filter] in Ex, Ey. rewrite Hrefl in Ex, Ey.
        destruct (has (key x) y) eqn:E1;
          [apply Z.eqb_eq in E1; congruence|].
        destruct (has (key y) x) eqn:E2; [now apply Z.eqb_eq in E2|].
        symmetry in Ex. apply Hin in Ex, Ey.
        rewrite Forall_forall in Hall1, Hall2.
        apply Hall2 in Ex. apply Hall1 in Ey. unfold le in *. lia. }
      assert (Hhd : x = y /\ forall k, filter (has k) l1 = filter (has k) l2).
      { split.
        - specialize (Hf (key x)). cbn [filter] in Hf.
          rewrite Hrefl in Hf. rewrite Hxy, Hrefl in Hf. congruence.
        - intros k. specialize (Hf k). cbn [filter] in Hf.
          assert (E : has k x = has k y) by (unfold has; now rewrite Hxy).
          rewrite E in Hf. destruct (has k y); congruence. }
      destruct Hhd as [-> Hf']. f_equal. now apply IH.
Qed.

End SortFacts.

(* ----------------------------------------------------------------- *)
(** ** Small facts about lists and numbers *)

Lemma Qltb_lt x y : Qltb x y = true <-> (x < y)%Q.
Proof.
  unfold Qltb. rewrite negb_true_iff, <- not_true_iff_false, Qle_bool_iff.
  split; [apply Qnot_le_lt | apply Qlt_not_le].
Qed.

Lemma Qltb_nlt x y : Qltb x y = false <-> ~ (x < y)%Q.
Proof. rewrite <- Qltb_lt. now destruct (Qltb x y). Qed.

(** A filtered list that splits at [a] comes from a list that splits at
    the same [a]. *)
Lemma filter_split A (p : A -> bool) a l u v :
  filter p l = u ++ a :: v ->
  exists l1 l2, l = l1 ++ a :: l2 /\ filter p l1 = u /\ filter p l2 = v.
Proof.
  revert u. induction l as [|x l IH]; intros u E; cbn [filter] in E.
  - now destruct u.
  - destruct (p x) eqn:Px.
    + destruct u as [|y u]; cbn in E; injection E as Hx E.
      * subst x. exists [], l. cbn. auto.
      * subst y. destruct (IH _ E) as (l1 & l2 & -> & <- & <-).
        exists (x :: l1), l2. cbn [filter].
        rewrite Px. cbn. auto.
    + destruct (IH _ E) as (l1 & l2 & -> & <- & <-).
      exists (x :: l1), l2. cbn [filter]. now rewrite Px.
Qed.

(** [find] returns the first element that passes the test. *)
Lemma find_first A (p : A -> bool) l x :
  find p l = Some x <->
  exists before after,
    l = before ++ x :: after /\ p x = true /\
    forall y, In y before -> p y = false.
Proof.
  split.
  - induction l as [|y l IH]; cbn [find]; [discriminate|].
    destruct (p y) eqn:Py.
    + intros [= ->]. exists [], l. cbn. intuition.
    + intros E. destruct (IH E) as (b & a & -> & Px & Hb).
      exists (y :: b), a. cbn. intuition (subst; auto).
  - intros (b & a & -> & Px & Hb).
    induction b as [|y b IH]; cbn [find app].
    + now rewrite Px.
    + rewrite (Hb y) by now left. apply IH. intros; apply Hb; now right.
Qed.

Lemma find_none_iff A (p : A -> bool) l :
  find p l = None <-> forall y, In y l -> p y = false.
Proof.
  split; [apply find_none|].
  induction l as [|y l IH]; cbn [find]; intros H; [reflexivity|].
  rewrite (H y) by now left. apply IH. intros; apply H; now right.
Qed.

(* ----------------------------------------------------------------- *)
(** ** The incident table *)

Section FilterAndProjection.
Variable incidents : list Incident.
Variable filters : FilterState.

Let shown := filteredIncidents incidents filters.
Let at_second (k : Z) (inc : Incident) : bool := (seconds inc =? k)%Z.
Let earlier_or_same (a b : Incident) : Prop := (seconds a <= seconds b)%Z.

Lemma filteredIncidents_perm :
  Permutation shown (filter (visible filters) incidents).
Proof. symmetry. apply sort_perm. Qed.

Lemma filteredIncidents_In inc :
  In inc shown <->
  In inc incidents /\ filter_get filters (severity inc) = true.
Proof.
  rewrite <- (filter_In (visible filters)).
  split; apply Permutation_in;
    [apply filteredIncidents_perm | symmetry; apply filteredIncidents_perm].
Qed.

Lemma filteredIncidents_sorted : StronglySorted earlier_or_same shown.
Proof.
  apply Sorted_StronglySorted.
  - intros a b c. unfold earlier_or_same. lia.
  - apply (sort_sorted seconds).
Qed.

Lemma filteredIncidents_stable k :
  filter (at_second k) shown =
  filter (at_second k) (filter (visible filters) incidents).
Proof. apply (sort_stable seconds). Qed.

(** Any list that is sorted by second and keeps, second by second, the
    visible incidents in their order is the list the table shows: the
    choice of a sorting algorithm makes no difference. *)
Lemma filteredIncidents_unique l :
  Sorted earlier_or_same l ->
  (forall k, filter (at_second k) l =
             filter (at_second k) (filter (visible filters) incidents)) ->
  l = shown.
Proof.
  intros Hl Hk. apply (sorted_stable_unique seconds).
  - exact Hl.
  - apply (sort_sorted seconds).
  - intros k. etransitivity; [apply Hk|].
    symmetry. apply filteredIncidents_stable.
Qed.

(** Two visible incidents of the same second, [a] listed before [b],
    are shown with [a] before [b]. *)
Lemma filteredIncidents_keeps_order a b l1 l2 l3 :
  incidents = l1 ++ a :: l2 ++ b :: l3 ->
  visible filters a = true -> visible filters b = true ->
  seconds a = seconds b ->
  exists m1 m2 m3, shown = m1 ++ a :: m2 ++ b :: m3.
Proof.
  intros Hl Va Vb Hs.
  pose proof (filteredIncidents_stable (seconds a)) as E.
  rewrite Hl in E.
  rewrite !filter_app in E. cbn [filter] in E.
  rewrite !filter_app in E. cbn [filter] in E.
  rewrite Va, Vb in E. cbn [filter] in E.
  rewrite !filter_app in E. cbn [filter] in E.
  unfold at_second in E at 3 5.
  rewrite <- Hs, Z.eqb_refl in E.
  apply filter_split in E. destruct E as (m1 & r & Hshown & _ & Er).
  apply filter_split in Er. destruct Er as (m2 & m3 & -> & _ & _).
  now exists m1, m2, m3.
Qed.

End FilterAndProjection.

(** C1. Whatever the incidents and the filter selection, the table shows
    exactly the incidents whose severity is switched on (each as often as
    it occurs), in non-decreasing order of [seconds], and incidents of the
    same second in the order they have in the incident list. *)
Theorem filteredIncidents_correct
    (incidents : list Incident) (filters : FilterState) :
  let shown := filteredIncidents incidents filters in
  (forall inc, In inc shown <->
               In inc incidents /\ filter_get filters (severity inc) = true)
  /\ Permutation shown
       (filter (fun inc => filter_get filters (severity inc)) incidents)
  /\ StronglySorted (fun a b => (seconds a <= seconds b)%Z) shown
  /\ (forall k,
        filter (fun inc => (seconds inc =? k)%Z) shown =
        filter (fun inc => (seconds inc =? k)%Z)
          (filter (fun inc => filter_get filters (severity inc)) incidents))
  /\ (forall a b l1 l2 l3,
        incidents = l1 ++ a :: l2 ++ b :: l3 ->
        filter_get filters (severity a) = true ->
        filter_get filters (severity b) = true ->
        seconds a = seconds b ->
        exists m1 m2 m3, shown = m1 ++ a :: m2 ++ b :: m3).
Proof.
  cbv zeta. split; [|split; [|split; [|split]]].
  - apply filteredIncidents_In.
  - apply filteredIncidents_perm.
  - apply filteredIncidents_sorted.
  - apply filteredIncidents_stable.
  - apply filteredIncidents_keeps_order.
Qed.

Lemma near_within currentTime inc :
  near currentTime inc = true <-> within_window currentTime inc.
Proof. apply Qltb_lt. Qed.

Lemma near_outside currentTime inc :
  near currentTime inc = false <-> ~ within_window currentTime inc.
Proof. apply Qltb_nlt. Qed.

(** C2. The active incident is the first incident of the unfiltered list
    that lies strictly less than three seconds from the playback position;
    there is none exactly when no incident lies that close; a distance of
    exactly three seconds does not count; the highlighted id is that
    incident's id; and the filter selection plays no part: an incident that
    the filters hide can be the active one. *)
Theorem activeIncident_first_in_window :
  (forall incidents currentTime inc,
      activeIncident incidents currentTime = Some inc <->
      exists before after,
        incidents = before ++ inc :: after /\
        within_window currentTime inc /\
        forall x, In x before -> ~ within_window currentTime x)
  /\ (forall incidents currentTime,
        activeIncident incidents currentTime = None <->
        forall x, In x incidents -> ~ within_window currentTime x)
  /\ (forall incidents currentTime,
        activeIncidentId incidents currentTime =
        option_map id (activeIncident incidents currentTime))
  /\ (forall currentTime inc,
        (Qabs (currentTime - inject_Z (seconds inc)) == 3)%Q ->
        near currentTime inc = false)
  /\ (exists incidents filters currentTime inc,
        activeIncident incidents currentTime = Some inc /\
        ~ In inc (filteredIncidents incidents filters)).
Proof.
  split; [|split; [|split; [|split]]].
  - intros incidents currentTime inc. unfold activeIncident.
    rewrite find_first. split.
    + intros (b & a & E & Hn & Hb). exists b, a. repeat split; auto.
      * now apply near_within.
      * intros x Hx. apply near_outside. auto.
    + intros (b & a & E & Hn & Hb). exists b, a. repeat split; auto.
      * now apply near_within.
      * intros x Hx. apply near_outside. auto.
  - intros incidents currentTime. unfold activeIncident.
    rewrite find_none_iff. split; intros H x Hx; apply near_outside; auto.
  - reflexivity.
  - intros currentTime inc E. apply near_outside. unfold within_window.
    rewrite E. apply Qlt_irrefl.
  - exists [mkIncident "inc-0-0" "00:30" 30 LOW "x"],
      (mkFilterState false true true), (32 # 1)%Q,
      (mkIncident "inc-0-0" "00:30" 30 LOW "x").
    split; [reflexivity | intros []].
Qed.

(** The two examples of the specification: an incident at second 30 is
    active at 32 and not at 34 (nor at 33, the boundary). *)
Example activeIncident_examples :
  let inc := mkIncident "inc-0-0" "00:30" 30 HIGH "x" in
  activeIncidentId [inc] (32 # 1)%Q = Some "inc-0-0" /\
  activeIncidentId [inc] (33 # 1)%Q = None /\
  activeIncidentId [inc] (34 # 1)%Q = None.
Proof. repeat split. Qed.

(* ----------------------------------------------------------------- *)
(** ** Exports *)

(** C8, as the code has it. Both exports run over the filtered, sorted
    incidents and nothing else. The clipboard text has one line per
    incident of the form [[timestamp] severity: description]; the CSV text
    is the header [Timestamp,Severity,Description] followed by one row
    [timestamp,severity,"description"] per incident. *)
Theorem exports_follow_filteredIncidents
    (incidents : list Incident) (filters : FilterState) :
  handleCopy incidents filters =
    join LF (map clipboard_line (filteredIncidents incidents filters))
  /\ handleExportCSV incidents filters =
       join LF ("Timestamp,Severity,Description"
                  :: map csv_line (filteredIncidents incidents filters)).
Proof.
  split; [reflexivity|].
  unfold handleExportCSV. rewrite map_map. reflexivity.
Qed.

(** C8, as stated, fails: the clipboard line starts with the timestamp in
    brackets, not with the severity. *)
Lemma handleCopy_not_severity_first :
  let inc := mkIncident "inc-0-0" "00:05" 5 HIGH "x" in
  handleCopy [inc] all_true = "[00:05] High: x" /\
  handleCopy [inc] all_true <>
    join LF (map severity_first_line (filteredIncidents [inc] all_true)).
Proof. split; [reflexivity | discriminate]. Qed.

(** The scenario of the specification: one incident, two CSV lines. *)
Example handleExportCSV_scenario :
  handleExportCSV [mkIncident "inc-0-0" "00:05" 5 HIGH "x"] all_true =
  ("Timestamp,Severity,Description" ++ LF
     ++ "00:05,High," ++ DQUOTE ++ "x" ++ DQUOTE)%string.
Proof. reflexivity. Qed.

(* ----------------------------------------------------------------- *)
(** ** The playback controller *)

Lemma clamp_bounds d t : (0 <= d)%Q -> (0 <= clamp d t <= d)%Q.
Proof.
  intros Hd. unfold clamp. split.
  - apply Q.le_max_l.
  - apply Q.max_lub; [exact Hd | apply Q.le_min_l].
Qed.

(** C7, as the code has it: when the metadata event arrives the handler
    stores the element's [duration] and reports that very value upstream,
    whatever it is; the application stores what it is told. *)
Theorem handleLoadedMetadata_reports_duration_as_is
    (p : Player) (el : MediaElement) (s : Model) :
  videoRef p = Some el ->
  handleLoadedMetadata p =
    (setDuration (el_duration el) p, [onDurationChange (el_duration el)])
  /\ videoDuration
       (fold_right deliver s (snd (handleLoadedMetadata p))) = el_duration el.
Proof.
  intros H. unfold handleLoadedMetadata. rewrite H. split; reflexivity.
Qed.

Lemma handleLoadedMetadata_reports_duration_as_is_witness :
  handleLoadedMetadata player_at_10 =
    (setDuration (Num 100) player_at_10, [onDurationChange (Num 100)])
  /\ videoDuration
       (fold_right deliver App.initial
          (snd (handleLoadedMetadata player_at_10)))
     = Num 100.
Proof.
  apply (@handleLoadedMetadata_reports_duration_as_is player_at_10
           (mkMedia (clamp 100 10) (Num 100) true false) App.initial).
  reflexivity.
Defined.

(** C7, as stated, fails: a not-a-number duration goes upstream as it is,
    not as 0, and ends up in the application's state. *)
Lemma handleLoadedMetadata_propagates_NaN :
  let p := commit true None VideoPlayer.initial in
  option_map el_duration (videoRef p) = Some NaN /\
  snd (handleLoadedMetadata p) = [onDurationChange NaN] /\
  snd (handleLoadedMetadata p) <> [onDurationChange (Num 0)] /\
  videoDuration (fold_right deliver App.initial (snd (handleLoadedMetadata p)))
    = NaN.
Proof. repeat split. discriminate. Qed.

(** C9, as the code has it: [skip] moves the element exactly where
    [handleSeek] would move it for the target "element position plus
    delta", the element keeping the position within [0, duration]; but
    only [handleSeek] tells the observer (it reports its target at once),
    [skip] reports nothing itself, and the observer learns the new position
    from the element's next time-update event. *)
Theorem skip_seeks_without_reporting
    (p : Player) (el : MediaElement) (seconds : Q) :
  videoRef p = Some el ->
  let target := (el_currentTime el + seconds)%Q in
  fst (skip seconds p) = fst (handleSeek target p)
  /\ videoRef (fst (skip seconds p)) = Some (set_currentTime target el)
  /\ (forall d, el_duration el = Num d -> (0 <= d)%Q ->
        el_currentTime (set_currentTime target el) = clamp d target /\
        (0 <= el_currentTime (set_currentTime target el) <= d)%Q)
  /\ snd (handleSeek target p) = [onTimeUpdate target]
  /\ snd (skip seconds p) = []
  /\ snd (handleTimeUpdate (fst (skip seconds p))) =
       [onTimeUpdate (el_currentTime (set_currentTime target el))].
Proof.
  intros H target. unfold skip, handleSeek. rewrite H. cbn [fst snd].
  split; [reflexivity|]. split; [reflexivity|].
  split; [|repeat split].
  intros d Hd Hpos. unfold set_currentTime. rewrite Hd. cbn.
  split; [reflexivity | now apply clamp_bounds].
Qed.

Lemma skip_seeks_without_reporting_witness :
  fst (skip 5 player_at_10) = fst (handleSeek (clamp 100 10 + 5)%Q player_at_10)
  /\ snd (skip 5 player_at_10) = [].
Proof.
  pose proof (@skip_seeks_without_reporting player_at_10
                (mkMedia (clamp 100 10) (Num 100) true false) 5 eq_refl) as H.
  split; [apply H | apply H].
Defined.

(** C9, as stated, fails: [skip(5)] and [handleSeek(currentTime + 5)] leave
    the element at the same place but differ in what the observer is told. *)
Lemma skip_not_equivalent_to_seek :
  snd (skip 5 player_at_10) = [] /\
  snd (handleSeek (10 + 5)%Q player_at_10) = [onTimeUpdate (10 + 5)%Q] /\
  skip 5 player_at_10 <> handleSeek (10 + 5)%Q player_at_10.
Proof. repeat split. discriminate. Qed.

(* ----------------------------------------------------------------- *)
(** ** A sample session *)

Lemma sample_results_reachable : reachable sample_results.
Proof.
  eapply reach_step; [eapply reach_step; [eapply reach_step|] |].
  - apply reach_initial.
  - apply (step_select App.initial sample_file). reflexivity.
  - apply step_analyze. reflexivity.
  - apply (@step_settled sample_analyzing sample_world sample_file);
      reflexivity.
Qed.

Example sample_results_state :
  appState sample_results = RESULTS /\
  option_map (fun r => List.length (incidents r))
    (analysisResult sample_results)
    = Some 1%nat /\
  option_map (fun r => typed_incidents (incidents r))
    (analysisResult sample_results)
    = Some (Some [mkIncident "inc-0-1700000000000" "00:05" 5 HIGH "x"]).
Proof. repeat split. Qed.

(* ----------------------------------------------------------------- *)
(** ** Seek requests *)

Lemma set_currentTime_paused t el :
  el_paused (set_currentTime t el) = el_paused el.
Proof. unfold set_currentTime. now destruct (el_duration el). Qed.

(** Every state the application reaches holds a request object, if any,
    that was allocated earlier. *)
Lemma request_allocated_before s :
  reachable s ->
  forall r, seekToRequest s = Some r -> (seek_ref r < allocated s)%nat.
Proof.
  induction 1 as [|s e s' Hs IH Hstep]; [discriminate|].
  destruct Hstep; cbn; intros r Hr; try (now apply IH); try discriminate.
  - unfold validateAndSetFile in Hr |- *.
    destruct (negb _); [now apply IH|].
    destruct (_ >? _)%Z; [now apply IH|].
    cbn in *. apply IH in Hr. lia.
  - unfold startAnalysis in Hr |- *. destruct (file s); now apply IH.
  - unfold startAnalysis_resume in Hr |- *.
    destruct (snd _); now apply IH.
  - injection Hr as <-. cbn. lia.
  - destruct u; now apply IH.
Qed.

(** A click on an incident row stores an object the player has not been
    given before, so the effect of the player is due at the next commit. *)
Lemma click_is_always_due s seconds now :
  reachable s ->
  Object_is (seekToRequest s)
    (seekToRequest (onIncidentClick seconds now s)) = false.
Proof.
  intros Hs. cbn. destruct (seekToRequest s) as [r|] eqn:E; [|reflexivity].
  cbn. apply Nat.eqb_neq. apply (request_allocated_before Hs) in E. lia.
Qed.

(** C10, as the code has it. What decides is the identity of the request
    object, not its nonce. When the player is handed a request object other
    than the one of its last commit (on the first commit, after a null
    prop, or after another object, whatever the two nonces are) it moves
    the element to the request's target, asks a paused element to play
    (playback starts unless the platform blocks it), leaves a playing
    element playing and shows the playing state. When it is handed the
    object of its last commit again, it does nothing: wherever the element
    stands by then, it is not moved, and the play state is not touched. *)
Theorem seek_request_handled_once_per_object
    (allowed : bool) (p : Player) (el : MediaElement) (req : SeekRequest) :
  videoRef p = Some el ->
  let p' := commit allowed (Some req) p in
  let el' := set_currentTime (seek_time req) el in
  ((committed_seekTo p = None \/ committed_seekTo p = Some None \/
    exists old, committed_seekTo p = Some (Some old) /\
                seek_ref old <> seek_ref req) ->
   videoRef p' = Some (if el_paused el then play allowed el' else el')
   /\ (el_paused el = false ->
       option_map el_paused (videoRef p') = Some false)
   /\ (el_paused el = true ->
       option_map el_paused (videoRef p') = Some (negb allowed))
   /\ isPlaying p' = true
   /\ committed_seekTo p' = Some (Some req))
  /\ (forall old,
        committed_seekTo p = Some (Some old) ->
        seek_ref old = seek_ref req ->
        videoRef p' = Some el /\
        isPlaying p' = isPlaying p /\
        p' = set_committed (Some req) p).
Proof.
  intros Hv p' el'. split.
  - intros Hnew.
    assert (Hdue : effect_due p (Some req) = true).
    { unfold effect_due.
      destruct Hnew as [-> | [-> | (old & -> & Hneq)]]; try reflexivity.
      cbn. now apply negb_true_iff, Nat.eqb_neq. }
    assert (Hp' : p' = setIsPlaying true
              (with_video (if el_paused el then play allowed el' else el')
                 (set_committed (Some req) p))).
    { unfold p', commit. rewrite Hv, Hdue. unfold seekTo_effect. rewrite Hv.
      unfold el'. rewrite set_currentTime_paused.
      destruct (el_paused el); reflexivity. }
    split; [now rewrite Hp'|]. split; [|split; [|split]].
    + intros Hpl. rewrite Hp', Hpl. cbn. unfold el'.
      now rewrite set_currentTime_paused, Hpl.
    + intros Hpl. rewrite Hp', Hpl. cbn. unfold play.
      destruct allowed; cbn; [reflexivity|]. unfold el'.
      now rewrite set_currentTime_paused, Hpl.
    + now rewrite Hp'.
    + now rewrite Hp'.
  - intros old Hold Hsame.
    assert (Hp' : p' = set_committed (Some req) p).
    { unfold p', commit, effect_due. rewrite Hv, Hold. cbn.
      now rewrite Hsame, Nat.eqb_refl. }
    rewrite Hp'. cbn. auto.
Qed.

(** The same request object handed over again after the user has moved
    the slider to second 50 leaves the element at 50; another object with
    the same nonce moves it to second 5. *)
Lemma seek_request_handled_once_per_object_witness :
  let req := mkSeek 0 5 1000 in
  let twin := mkSeek 1 5 1000 in
  let p1 := fst (handleSeek 50 (commit true (Some req) player_at_10)) in
  position (commit true (Some req) p1) = Some 50%Q /\
  position (commit true (Some twin) p1) = Some 5%Q /\
  isPlaying (commit true (Some twin) p1) = true.
Proof.
  intros req twin p1.
  destruct (@seek_request_handled_once_per_object true p1
              (mkMedia (clamp 100 50) (Num 100) false false) req eq_refl)
    as [_ Hsame].
  destruct (@seek_request_handled_once_per_object true p1
              (mkMedia (clamp 100 50) (Num 100) false false) twin eq_refl)
    as [Hnew _].
  destruct (Hsame req eq_refl eq_refl) as (Hv & _ & _).
  destruct Hnew as (Hv' & _ & _ & Hplay & _).
  { right. right. exists req. split; [reflexivity | discriminate]. }
  unfold position. rewrite Hv, Hv'.
  split; [reflexivity | split; [reflexivity | exact Hplay]].
Defined.

(** C10, as stated, fails: two clicks on the incident at second 5 while
    the clock reads 1000 store two objects with the same nonce, and the
    player seeks for each of them. Between the two the user has moved the
    slider to second 50; the second request brings the element back to
    second 5. *)
Lemma same_nonce_seeks_twice :
  let s1 := onIncidentClick 5 1000 sample_results in
  let s2 := onIncidentClick 5 1000 s1 in
  let p0 := metadata_loaded (Num 100)
              (commit true (seekToRequest sample_results)
                 VideoPlayer.initial) in
  let p1 := commit true (seekToRequest s1) p0 in
  let p2 := fst (handleSeek 50 p1) in
  let p3 := commit true (seekToRequest s2) p2 in
  option_map seek_timestamp (seekToRequest s1) = Some 1000%Z /\
  option_map seek_timestamp (seekToRequest s2) = Some 1000%Z /\
  option_map el_currentTime (videoRef p1) = Some (inject_Z 5) /\
  option_map el_currentTime (videoRef p2) = Some 50%Q /\
  option_map el_currentTime (videoRef p3) = Some (inject_Z 5) /\
  p3 <> set_committed (seekToRequest s2) p2.
Proof. repeat split. discriminate. Qed.

(* ----------------------------------------------------------------- *)
(** ** The analysis client: identifiers *)

(** The digits of an index end where the first dash begins. *)
Lemma string_of_uint_dash_inj d d' r r' :
  (NilEmpty.string_of_uint d ++ String "-" r)%string =
  (NilEmpty.string_of_uint d' ++ String "-" r')%string ->
  d = d'.
Proof.
  revert d'. induction d; destruct d'; cbn; intros H;
    try discriminate; try reflexivity;
    injection H as H; f_equal; now apply IHd.
Qed.

Lemma incident_id_inj w i j : incident_id w i = incident_id w j -> i = j.
Proof.
  unfold incident_id, string_of_index. cbn. intros H. injection H as H.
  apply string_of_uint_dash_inj in H. now apply Unsigned.to_uint_inj.
Qed.

Lemma assembled_length w index items :
  List.length (assembled w index items) = List.length items.
Proof. revert index. induction items; cbn; auto. Qed.

Lemma assembled_ids w index items :
  map raw_id (assembled w index items) =
  map (incident_id w) (seq index (List.length items)).
Proof.
  revert index. induction items as [|inc rest IH]; intros index; cbn;
    [reflexivity | now rewrite IH].
Qed.

Lemma assembled_ids_distinct w index items :
  NoDup (map raw_id (assembled w index items)).
Proof.
  rewrite assembled_ids. apply Finite.Injective_map_NoDup.
  - intros i j. apply incident_id_inj.
  - apply seq_NoDup.
Qed.

Lemma assembled_nth w items : forall index i inc,
  nth_error items i = Some inc ->
  nth_error (assembled w index items) i =
  Some (mkRaw (incident_id w (index + i)) (field inc "timestamp")
          (field inc "seconds") (field inc "severity")
          (field inc "description")).
Proof.
  induction items as [|x rest IH]; intros index [|i] inc H; cbn in *;
    try discriminate.
  - injection H as ->. now rewrite Nat.add_0_r.
  - rewrite (IH (S index) i inc H).
    now replace (index + S i)%nat with (S index + i)%nat by lia.
Qed.

Lemma get_not_null v k : v <> JNull -> get v k = ret (field v k).
Proof. destruct v; intros H; try reflexivity. now elim H. Qed.

Lemma build_incident_not_null w index inc :
  inc <> JNull ->
  build_incident w index inc =
  ret (mkRaw (incident_id w index) (field inc "timestamp")
         (field inc "seconds") (field inc "severity")
         (field inc "description")).
Proof.
  intros H. unfold build_incident. now rewrite !(get_not_null _ H).
Qed.

Lemma map_incidents_not_null w items : forall index,
  ~ In JNull items ->
  map_incidents w index items = ret (assembled w index items).
Proof.
  induction items as [|inc rest IH]; intros index H; cbn [map_incidents].
  - reflexivity.
  - rewrite build_incident_not_null by (intros ->; apply H; now left).
    cbn. rewrite IH by (intros Hin; apply H; now right). reflexivity.
Qed.

(** Handling the response performs no effect on the outside world. *)
Lemma get_pure v k : fst (get v k) = [].
Proof. now destruct v. Qed.

Lemma bind_pure A B (m : M A) (k : A -> M B) :
  fst m = [] -> (forall a, fst (k a) = []) -> fst (bind m k) = [].
Proof.
  destruct m as [t [a|e]]; cbn; intros -> Hk; [|reflexivity].
  specialize (Hk a). now destruct (k a).
Qed.

Lemma map_incidents_pure w items : forall index,
  fst (map_incidents w index items) = [].
Proof.
  induction items as [|inc rest IH]; intros index; cbn [map_incidents];
    [reflexivity|].
  apply bind_pure.
  - unfold build_incident. repeat (apply bind_pure; [apply get_pure | intros]).
    reflexivity.
  - intros r. apply bind_pure; [apply IH | reflexivity].
Qed.

Lemma respond_pure w text : fst (respond w text) = [].
Proof.
  unfold respond. destruct (negb _); [reflexivity|].
  destruct (JSON_parse w text) as [m|doc]; [reflexivity|].
  apply bind_pure; [apply get_pure | intros s].
  destruct (negb _); [reflexivity|].
  apply bind_pure; [apply get_pure | intros i].
  destruct i as [[]|]; try reflexivity.
  apply bind_pure; [apply map_incidents_pure | reflexivity].
Qed.

(* ----------------------------------------------------------------- *)
(** ** The analysis client: checks before the network *)

Lemma gtb_true a b : (a > b)%Z -> (a >? b)%Z = true.
Proof. intros H. rewrite Z.gtb_ltb. apply Z.ltb_lt. lia. Qed.

Lemma gtb_false a b : (a <= b)%Z -> (a >? b)%Z = false.
Proof. intros H. rewrite Z.gtb_ltb. apply Z.ltb_ge. lia. Qed.

(** Whatever the environment, a file of the wrong type or above 50 MB is
    turned down before the file is read and before the service is called. *)
Lemma analyze_rejects_without_effects w f :
  startsWith (file_type f) "video/" = false \/
  (file_size f > 50 * 1024 * 1024)%Z ->
  fst (analyzeVideoWithGemini w f) = [] /\
  exists message, snd (analyzeVideoWithGemini w f) = Threw message /\
                  truthy_string message = true.
Proof.
  intros H. unfold analyzeVideoWithGemini, GeminiService.maxSize.
  destruct (truthy_string (API_KEY w)); cbn [negb]; [|cbn; eauto].
  destruct (startsWith (file_type f) "video/"); cbn [negb]; [|cbn; eauto].
  destruct H as [H|H]; [discriminate|].
  rewrite (gtb_true H). cbn; eauto.
Qed.

(** C4. With the key in place, [analyzeVideoWithGemini] turns down a file
    that is not a video, or is larger than 50 MB, with a message that says
    so and with no effect on the outside world at all: the file is not
    read and the service is not called. A file that passes both checks is
    read. File selection applies its own checks: a file that is not a video
    or is larger than 75 MB is not selected and a message is shown; a
    video of at most 75 MB is selected. *)
Theorem limits_enforced_at_both_points (w : World) (f : File) (s : Model) :
  truthy_string (API_KEY w) = true ->
  (startsWith (file_type f) "video/" = false ->
     analyzeVideoWithGemini w f =
       ([], Threw "Invalid file type. Please upload a video file.")
     /\ validateAndSetFile f s =
          setErrorMsg "Please upload a valid video file (MP4, MOV, WebM)." s)
  /\ (startsWith (file_type f) "video/" = true ->
      (file_size f > 50 * 1024 * 1024)%Z ->
      analyzeVideoWithGemini w f =
        ([], Threw "File size exceeds 50MB limit. Please use a smaller video."))
  /\ (startsWith (file_type f) "video/" = true ->
      (file_size f <= 50 * 1024 * 1024)%Z ->
      exists rest, fst (analyzeVideoWithGemini w f) = ReadFile f :: rest)
  /\ (startsWith (file_type f) "video/" = true ->
      (file_size f > 75 * 1024 * 1024)%Z ->
      validateAndSetFile f s = setErrorMsg "File size exceeds 75MB limit." s)
  /\ (startsWith (file_type f) "video/" = true ->
      (file_size f <= 75 * 1024 * 1024)%Z ->
      file (validateAndSetFile f s) = Some f /\
      errorMsg (validateAndSetFile f s) = "" /\
      appState (validateAndSetFile f s) = appState s).
Proof.
  intros Hkey. unfold analyzeVideoWithGemini, validateAndSetFile.
  unfold GeminiService.maxSize, App.maxSize.
  rewrite Hkey. cbn [negb].
  split; [|split; [|split; [|split]]].
  - intros ->. split; reflexivity.
  - intros -> Hsize. cbn [negb]. now rewrite (gtb_true Hsize).
  - intros -> Hsize. cbn [negb]. rewrite (gtb_false Hsize).
    unfold fileToGenerativePart.
    destruct (readAsDataURL w f) as [url|]; cbn.
    + destruct (generateContent w _ _) as [m|text]; cbn; [eauto|].
      destruct (respond w text) as [t [r|m]]; cbn; eauto.
    + eauto.
  - intros -> Hsize. cbn [negb]. now rewrite (gtb_true Hsize).
  - intros -> Hsize. cbn [negb]. now rewrite (gtb_false Hsize).
Qed.

Lemma limits_enforced_at_both_points_witness :
  analyzeVideoWithGemini sample_world sixty_megabytes =
    ([], Threw "File size exceeds 50MB limit. Please use a smaller video.")
  /\ file (validateAndSetFile sixty_megabytes App.initial)
     = Some sixty_megabytes.
Proof.
  pose proof (@limits_enforced_at_both_points sample_world sixty_megabytes
                App.initial eq_refl) as (_ & Hbig & _ & _ & Hsel).
  split.
  - apply Hbig; [reflexivity | vm_compute; reflexivity].
  - apply Hsel; [reflexivity | vm_compute; discriminate].
Defined.

(* ----------------------------------------------------------------- *)
(** ** The analysis client: the response *)

Lemma analyze_after_response w f url text :
  truthy_string (API_KEY w) = true ->
  startsWith (file_type f) "video/" = true ->
  (file_size f <=? 50 * 1024 * 1024)%Z = true ->
  readAsDataURL w f = Some url ->
  generateContent w (file_type f) (nth_error (split_comma url) 1) = inr text ->
  analyzeVideoWithGemini w f =
  ([ReadFile f;
    GenerateContent (file_type f) (nth_error (split_comma url) 1)],
   handled w text).
Proof.
  intros Hkey Htype Hsize Hread Hgen.
  unfold analyzeVideoWithGemini, GeminiService.maxSize, handled.
  rewrite Hkey, Htype. cbn [negb].
  rewrite gtb_false by now apply Z.leb_le.
  unfold fileToGenerativePart, generate. rewrite Hread.
  unfold bind, perform. rewrite Hgen. cbv beta iota.
  pose proof (respond_pure w text) as Hpure.
  destruct (respond w text) as [t [r|m]]; cbn in *; now subst t.
Qed.

(** C5, as the code has it. Once the response text has arrived:
    - an empty text fails with "No response from Gemini API";
    - a text the parser rejects fails, and the [catch] block chooses the
      message by what the parser's message mentions: the invalid-key text
      for API_KEY_INVALID, else the quota text for quota, else the
      file-reading text for "Failed to read file"; only a parser message
      that mentions none of these is passed on as it is (the generic text
      replaces an empty one). So the failure is not always told apart from
      a failure of the service call;
    - an object whose [summary] is absent or falsy (the empty string
      included), or whose [incidents] is not an array, fails with "Invalid
      response format from Gemini API";
    - an object with a truthy [summary] (of whatever type) and an
      [incidents] array without [null] items yields the result: that
      summary, and one incident per item, in order, each with the four
      fields copied and with the id [inc-<index>-<clock>]; the ids are
      pairwise distinct. *)
Theorem response_handling (w : World) (f : File) (url text : string) :
  truthy_string (API_KEY w) = true ->
  startsWith (file_type f) "video/" = true ->
  (file_size f <=? 50 * 1024 * 1024)%Z = true ->
  readAsDataURL w f = Some url ->
  generateContent w (file_type f) (nth_error (split_comma url) 1) = inr text ->
  let result := snd (analyzeVideoWithGemini w f) in
  (truthy_string text = false ->
     result = Threw "No response from Gemini API")
  /\ (forall message,
        truthy_string text = true -> JSON_parse w text = inl message ->
        (exists shown, result = Threw shown /\ truthy_string shown = true)
        /\ (includes message "API_KEY_INVALID" = true ->
            result =
            Threw
              "Invalid API key. Please check your Gemini API key configuration.")
        /\ (includes message "API_KEY_INVALID" = false ->
            includes message "quota" = true ->
            result = Threw "API quota exceeded. Please try again later.")
        /\ (includes message "API_KEY_INVALID" = false ->
            includes message "quota" = false ->
            includes message "Failed to read file" = true ->
            result = Threw "Failed to read the video file. Please try again.")
        /\ (includes message "API_KEY_INVALID" = false ->
            includes message "quota" = false ->
            includes message "Failed to read file" = false ->
            (truthy_string message = true -> result = Threw message) /\
            (message = "" ->
             result =
             Threw
               "Failed to analyze video. Please try again or check the file format.")))
  /\ (forall fields,
        truthy_string text = true -> JSON_parse w text = inr (JObject fields) ->
        truthy (lookup "summary" fields) = false \/
        (forall items, lookup "incidents" fields <> Some (JArray items)) ->
        result = Threw "Invalid response format from Gemini API")
  /\ (forall fields s items,
        truthy_string text = true -> JSON_parse w text = inr (JObject fields) ->
        lookup "summary" fields = Some s -> truthy (Some s) = true ->
        lookup "incidents" fields = Some (JArray items) ->
        ~ In JNull items ->
        let incs := assembled w 0 items in
        result = Returned (mkResult s incs)
        /\ List.length incs = List.length items
        /\ NoDup (map raw_id incs)
        /\ forall i inc,
             nth_error items i = Some inc ->
             nth_error incs i =
             Some (mkRaw (incident_id w i) (field inc "timestamp")
                     (field inc "seconds") (field inc "severity")
                     (field inc "description"))).
Proof.
  intros Hkey Htype Hsize Hread Hgen result. unfold result.
  rewrite (analyze_after_response _ _ Hkey Htype Hsize Hread Hgen).
  cbn [snd]. unfold handled, respond.
  split; [|split; [|split]].
  - intros ->. reflexivity.
  - intros message -> ->. cbn. unfold rethrown.
    split.
    { eexists. split; [reflexivity|].
      destruct (includes message "API_KEY_INVALID"); [reflexivity|].
      destruct (includes message "quota"); [reflexivity|].
      destruct (includes message "Failed to read file"); [reflexivity|].
      now destruct message. }
    split; [now intros ->|]. split; [now intros -> ->|].
    split; [now intros -> -> ->|].
    intros -> -> ->. split.
    + intros Hm. unfold or_string. now rewrite Hm.
    + now intros ->.
  - intros fields -> -> [Hs|Hi]; cbn.
    + rewrite Hs. reflexivity.
    + destruct (truthy (lookup "summary" fields)); [|reflexivity]. cbn.
      destruct (lookup "incidents" fields) as [[]|]; try reflexivity.
      now elim (Hi items).
  - intros fields s items -> -> Hs Ht Hi Hnull. cbn.
    rewrite Hs. unfold or_value. rewrite Ht, Hi. cbn.
    rewrite (@map_incidents_not_null w items 0 Hnull). cbn.
    split; [reflexivity|]. split; [apply assembled_length|].
    split; [apply assembled_ids_distinct|].
    intros i inc Hn. apply (@assembled_nth w items 0 i inc Hn).
Qed.

Lemma response_handling_witness :
  snd (analyzeVideoWithGemini sample_world sample_file) =
    Returned
      (mkResult (JString "ok")
         [mkRaw "inc-0-1700000000000" (Some (JString "00:05"))
            (Some (JNumber 5)) (Some (JString "High")) (Some (JString "x"))])
  /\ NoDup (map raw_id (assembled sample_world 0
       [JObject [("timestamp", JString "00:05"); ("seconds", JNumber 5);
                 ("severity", JString "High"); ("description", JString "x")]])).
Proof.
  pose proof (@response_handling sample_world sample_file
                "data:video/mp4;base64,AAAA" "response"
                eq_refl eq_refl eq_refl eq_refl eq_refl) as (_ & _ & _ & H).
  specialize (H _ (JString "ok") _ eq_refl eq_refl eq_refl eq_refl eq_refl).
  destruct H as (Hr & _ & Hd & _).
  - intros [H|[]]. discriminate H.
  - split; [exact Hr | exact Hd].
Defined.

(** C5, as stated, fails on three counts. A response text that is not
    JSON does not fail with an error of its own: for the text [quota] the
    parser's message quotes the text, the [catch] block sees the word, and
    the call fails with the quota message, exactly as when the service
    call itself reports an exhausted quota. A document with an empty
    [summary] string and an [incidents] array has the shape asked for, and
    is turned down. A document whose [summary] is the number 5 has no
    [summary] string, and is accepted. *)
Lemma response_errors_not_as_stated :
  let read := fun _ : File => Some "data:video/mp4;base64,AAAA" in
  let not_json :=
    mkWorld "key" read (fun _ _ => inr "quota")
      (fun _ => inl ("Unexpected token 'q', " ++ DQUOTE ++ "quota" ++ DQUOTE
                       ++ " is not valid JSON")%string)
      (fun _ => 0%Z) in
  let no_quota :=
    mkWorld "key" read (fun _ _ => inl "429: quota exhausted")
      (fun _ => inr sample_document) (fun _ => 0%Z) in
  let empty_summary :=
    JObject [("summary", JString ""); ("incidents", JArray [])] in
  let number_summary :=
    JObject [("summary", JNumber 5); ("incidents", JArray [])] in
  let world doc :=
    mkWorld "key" read (fun _ _ => inr "response") (fun _ => inr doc)
      (fun _ => 0%Z) in
  snd (analyzeVideoWithGemini not_json sample_file) =
    Threw "API quota exceeded. Please try again later." /\
  snd (analyzeVideoWithGemini no_quota sample_file) =
    snd (analyzeVideoWithGemini not_json sample_file) /\
  has_summary_string_and_incidents_array empty_summary = true /\
  snd (analyzeVideoWithGemini (world empty_summary) sample_file) =
    Threw "Invalid response format from Gemini API" /\
  has_summary_string_and_incidents_array number_summary = false /\
  snd (analyzeVideoWithGemini (world number_summary) sample_file) =
    Returned (mkResult (JNumber 5) []).
Proof. repeat split. Qed.

(** A [null] among the incidents makes the construction of that incident
    throw; the call fails with the message of that error. *)
Example response_with_null_incident :
  let doc :=
    JObject [("summary", JString "ok"); ("incidents", JArray [JNull])] in
  let w :=
    mkWorld "key" (fun _ => Some "data:video/mp4;base64,AAAA")
      (fun _ _ => inr "response") (fun _ => inr doc) (fun _ => 0%Z) in
  snd (analyzeVideoWithGemini w sample_file) =
    Threw "Cannot read properties of null (reading 'timestamp')".
Proof. reflexivity. Qed.

(* ----------------------------------------------------------------- *)
(** ** The application state machine *)

Lemma rethrown_truthy message : truthy_string (rethrown message) = true.
Proof.
  unfold rethrown.
  destruct (includes message "API_KEY_INVALID"); [reflexivity|].
  destruct (includes message "quota"); [reflexivity|].
  destruct (includes message "Failed to read file"); [reflexivity|].
  now destruct message.
Qed.

(** Every failure of the analysis carries a message that is not empty, so
    the fallback text of [startAnalysis] never replaces it. *)
Lemma analyze_message_truthy w f message :
  snd (analyzeVideoWithGemini w f) = Threw message ->
  truthy_string message = true.
Proof.
  unfold analyzeVideoWithGemini.
  destruct (negb (truthy_string (API_KEY w))); [now intros [= <-]|].
  destruct (negb (startsWith (file_type f) "video/")); [now intros [= <-]|].
  destruct (file_size f >? GeminiService.maxSize)%Z; [now intros [= <-]|].
  destruct (bind _ _) as [t [r|e]]; cbn; [discriminate|].
  intros [= <-]. apply rethrown_truthy.
Qed.

Lemma validateAndSetFile_appState f s :
  appState (validateAndSetFile f s) = appState s.
Proof.
  unfold validateAndSetFile.
  destruct (negb _); [reflexivity|]. now destruct (_ >? _)%Z.
Qed.

Lemma step_listed s e s' :
  step s e s' -> listed (appState s) (appState s') = true.
Proof.
  destruct 1 as [s f H|s H|s H Hf|s w f H Hp|s H|s sec now H|s f H|s u H
                |s H|s H].
  - now rewrite validateAndSetFile_appState, H.
  - unfold startAnalysis. destruct (file s); cbn; now rewrite H.
  - cbn. now rewrite H.
  - rewrite H. unfold startAnalysis_resume. now destruct (snd _).
  - cbn. now rewrite H.
  - cbn. now rewrite H.
  - cbn. now rewrite H.
  - destruct u; cbn; now rewrite H.
  - cbn. now rewrite H.
  - cbn. now rewrite H.
Qed.

(** A selected file has passed the checks of file selection. *)
Lemma selected_file_is_validated s :
  reachable s ->
  forall f, file s = Some f ->
    startsWith (file_type f) "video/" = true /\
    (file_size f <= 75 * 1024 * 1024)%Z.
Proof.
  induction 1 as [|s e s' Hs IH Hstep]; [discriminate|].
  destruct Hstep as [s f0 H|s H|s H Hf|s w f0 H Hp|s H|s sec now H|s f0 H|s u H
                    |s H|s H]; cbn; try exact IH; try discriminate.
  - unfold validateAndSetFile, App.maxSize.
    destruct (startsWith (file_type f0) "video/") eqn:Et; cbn [negb];
      [|exact IH].
    destruct (file_size f0 >? 75 * 1024 * 1024)%Z eqn:Es; [exact IH|].
    cbn. intros f [= <-]. split; [exact Et|].
    rewrite Z.gtb_ltb in Es. apply Z.ltb_ge in Es. exact Es.
  - unfold startAnalysis. destruct (file s) eqn:Ef; [|now rewrite Ef].
    cbn. now rewrite Ef.
  - unfold startAnalysis_resume. destruct (snd _); exact IH.
  - destruct u; exact IH.
Qed.

(** While the analysis runs, exactly the selected file is in flight. *)
Lemma analyzing_has_pending s :
  reachable s ->
  (appState s = ANALYZING -> pending s = file s /\ file s <> None) /\
  (appState s <> ANALYZING -> pending s = None).
Proof.
  induction 1 as [|s e s' Hs IH Hstep].
  - split; [discriminate | reflexivity].
  - destruct IH as [IHa IHn].
    assert (Hnot : forall st, appState s = st -> st <> ANALYZING ->
                              pending s = None)
      by (intros st <- Hst; now apply IHn).
    destruct Hstep as [s f H|s H|s H Hf|s w f H Hp|s H|s sec now H|s f H|s u H
                      |s H|s H].
    + rewrite validateAndSetFile_appState, H. split; [discriminate|].
      intros _. unfold validateAndSetFile.
      destruct (negb _); [cbn; now apply (Hnot UPLOAD)|].
      destruct (_ >? _)%Z; cbn; now apply (Hnot UPLOAD).
    + unfold startAnalysis. destruct (file s) as [f|] eqn:Ef; cbn.
      * split; [intros _; now rewrite Ef | congruence].
      * rewrite H. split; [discriminate|]. intros _. now apply (Hnot UPLOAD).
    + cbn. split; [discriminate|]. intros _. now apply (Hnot UPLOAD).
    + unfold startAnalysis_resume. destruct (snd _); cbn;
        (split; [discriminate | reflexivity]).
    + cbn. split; [discriminate|]. intros _. now apply (Hnot RESULTS).
    + cbn. rewrite H. split; [discriminate|]. intros _.
      now apply (Hnot RESULTS).
    + cbn. rewrite H. split; [discriminate|]. intros _.
      now apply (Hnot RESULTS).
    + destruct u; cbn; rewrite H; (split; [discriminate|]); intros _;
        now apply (Hnot RESULTS).
    + cbn. split; [discriminate|]. intros _. now apply (Hnot ERROR).
    + cbn. split; [discriminate|]. intros _. now apply (Hnot ERROR).
Qed.

(** C3. Pressing "Analyze" without a file changes nothing; with a file
    the state becomes ANALYZING and the call is in flight; when the
    analysis settles the state becomes RESULTS with its result, or ERROR
    with the message of the failure; and whatever happens, the screen
    changes only along a listed transition: in particular never from
    UPLOAD to RESULTS or ERROR, and never from RESULTS to ANALYZING. *)
Theorem only_listed_transitions :
  (forall s, file s = None -> startAnalysis s = s)
  /\ (forall s f, file s = Some f ->
        appState (startAnalysis s) = ANALYZING /\
        pending (startAnalysis s) = Some f)
  /\ (forall s w f,
        appState s = ANALYZING -> pending s = Some f ->
        let s' := startAnalysis_resume (snd (analyzeVideoWithGemini w f)) s in
        step s (AnalysisSettled w) s' /\
        match snd (analyzeVideoWithGemini w f) with
        | Returned result =>
            appState s' = RESULTS /\ analysisResult s' = Some result
        | Threw message =>
            appState s' = ERROR /\ errorMsg s' = message
        end)
  /\ (forall s e s', step s e s' -> listed (appState s) (appState s') = true)
  /\ (forall s e s', step s e s' -> appState s = UPLOAD ->
        appState s' = UPLOAD \/ appState s' = ANALYZING)
  /\ (forall s e s', step s e s' -> appState s = RESULTS ->
        appState s' = RESULTS \/ appState s' = UPLOAD)
  /\ (forall s e s', step s e s' -> appState s' = ANALYZING ->
        appState s = UPLOAD /\ e = ClickAnalyze /\ file s <> None).
Proof.
  split; [|split; [|split; [|split; [|split; [|split]]]]].
  - intros s H. unfold startAnalysis. now rewrite H.
  - intros s f H. unfold startAnalysis. now rewrite H.
  - intros s w f H Hp s'. split; [now apply step_settled|].
    unfold s', startAnalysis_resume.
    destruct (snd (analyzeVideoWithGemini w f)) as [r|m] eqn:E; cbn.
    + split; reflexivity.
    + split; [reflexivity|]. unfold or_string.
      now rewrite (analyze_message_truthy _ _ E).
  - apply step_listed.
  - intros s e s' Hstep H. apply step_listed in Hstep. rewrite H in Hstep.
    destruct (appState s'); auto; discriminate.
  - intros s e s' Hstep H. apply step_listed in Hstep. rewrite H in Hstep.
    destruct (appState s'); auto; discriminate.
  - intros s e s' Hstep H. pose proof (step_listed Hstep) as Hl.
    rewrite H in Hl.
    destruct Hstep as [s f Hs|s Hs|s Hs Hf|s w f Hs Hp|s Hs|s sec now Hs
                      |s f Hs|s u Hs|s Hs|s Hs];
      rewrite Hs in Hl; try discriminate.
    + rewrite validateAndSetFile_appState in H. congruence.
    + repeat split; auto. unfold startAnalysis in H.
      destruct (file s); [discriminate | congruence].
Qed.

(* ----------------------------------------------------------------- *)
(** ** Reset *)

(** Past the upload screen a file is selected; and the preview URL of a
    selected file is one of the object URLs the browser holds. *)
Lemma preview_url_is_held s :
  reachable s ->
  (appState s <> UPLOAD -> file s <> None) /\
  (file s <> None -> In (videoUrl s) (objectURLs s)).
Proof.
  induction 1 as [|s e s' Hs [IHf IHu] Hstep].
  - split; [now intros [] | now intros []].
  - destruct Hstep as [s f H|s H|s H Hf|s w f H Hp|s H|s sec now H|s f H|s u H
                      |s H|s H].
    + rewrite validateAndSetFile_appState. split; [now rewrite H|].
      unfold validateAndSetFile.
      destruct (negb _); [exact IHu|].
      destruct (_ >? _)%Z; [exact IHu|].
      intros _. cbn. now left.
    + unfold startAnalysis. destruct (file s) as [f|] eqn:Ef; cbn.
      * rewrite Ef. split; [discriminate | exact IHu].
      * rewrite Ef. split; [now rewrite H | now intros []].
    + cbn. split; [now intros [] | now intros []].
    + assert (Hfile : file s <> None) by (apply IHf; rewrite H; discriminate).
      unfold startAnalysis_resume. destruct (snd _); cbn; auto.
    + cbn. split; [now intros [] | now intros []].
    + cbn. split; [intros _; apply IHf; rewrite H; discriminate | exact IHu].
    + cbn. split; [intros _; apply IHf; rewrite H; discriminate | exact IHu].
    + destruct u; cbn;
        (split; [intros _; apply IHf; rewrite H; discriminate | exact IHu]).
    + cbn. split; [now intros [] | now intros []].
    + cbn. split; [now intros [] | exact IHu].
Qed.

(** C6, as the code has it. From a results or error screen, reset leads
    to the upload screen and clears the file reference, the analysis
    result, the error message, the pending seek request and the stored
    preview URL. The filter selections stay as they are, and the object
    URL made for the preview is not released: the browser goes on holding
    it. *)
Theorem handleReset_clears_state (s : Model) :
  reachable s ->
  appState s = RESULTS \/ appState s = ERROR ->
  let s' := handleReset s in
  appState s' = UPLOAD
  /\ file s' = None
  /\ videoUrl s' = ""
  /\ analysisResult s' = None
  /\ errorMsg s' = ""
  /\ seekToRequest s' = None
  /\ filters s' = filters s
  /\ objectURLs s' = objectURLs s
  /\ In (videoUrl s) (objectURLs s').
Proof.
  intros Hs Hst s'. repeat split.
  apply (preview_url_is_held Hs). apply (preview_url_is_held Hs).
  destruct Hst as [-> | ->]; discriminate.
Qed.

Lemma handleReset_clears_state_witness :
  appState (handleReset sample_results) = UPLOAD /\
  file (handleReset sample_results) = None /\
  In (videoUrl sample_results) (objectURLs (handleReset sample_results)).
Proof.
  pose proof (@handleReset_clears_state sample_results
                sample_results_reachable (or_introl eq_refl)) as H.
  cbv zeta in H.
  destruct H as (H1 & H2 & _ & _ & _ & _ & _ & _ & H9).
  split; [exact H1 | split; [exact H2 | exact H9]].
Defined.

Lemma sample_filtered_reachable : reachable sample_filtered.
Proof.
  eapply reach_step; [apply sample_results_reachable|].
  apply step_filters. reflexivity.
Qed.

(** C6, as stated, fails: after reset the Low filter is still off, and the
    object URL created for the preview is still held although the state no
    longer refers to it. *)
Lemma handleReset_keeps_filters_and_url :
  reachable sample_filtered /\
  appState sample_filtered = RESULTS /\
  filters (handleReset sample_filtered) = mkFilterState false true true /\
  filters (handleReset sample_filtered) <> all_true /\
  videoUrl sample_filtered = "blob:0" /\
  videoUrl (handleReset sample_filtered) = "" /\
  objectURLs (handleReset sample_filtered) = ["blob:0"].
Proof.
  split; [apply sample_filtered_reachable|].
  repeat split. discriminate.
Qed.

(* ----------------------------------------------------------------- *)
(** ** Worked examples *)

(** Two incidents at second 5 keep their order around one at second 3. *)
Example filteredIncidents_ties :
  let a := mkIncident "inc-0-0" "00:05" 5 HIGH "first" in
  let b := mkIncident "inc-1-0" "00:03" 3 LOW "early" in
  let c := mkIncident "inc-2-0" "00:05" 5 MEDIUM "second" in
  filteredIncidents [a; b; c] all_true = [b; a; c] /\
  filteredIncidents [c; b; a] all_true = [b; c; a] /\
  filteredIncidents [a; b; c] (toggle all_true LOW) = [a; c].
Proof. repeat split. Qed.

Example platform_operations :
  join "," ["a"; "b"; "c"] = "a,b,c" /\
  includes "Resource quota exceeded" "quota" = true /\
  includes "network down" "quota" = false /\
  startsWith "video/mp4" "video/" = true /\
  startsWith "text/plain" "video/" = false /\
  split_comma "data:video/mp4;base64,AAAA"
    = ["data:video/mp4;base64"; "AAAA"] /\
  incident_id sample_world 12 = "inc-12-1700000000000".
Proof. repeat split. Qed.

(** A [text/plain] file: the message is shown and the screen stays. *)
Example select_text_file :
  let s :=
    validateAndSetFile (mkFile "notes.txt" "text/plain" 1024) App.initial in
  appState s = UPLOAD /\ file s = None /\
  errorMsg s = "Please upload a valid video file (MP4, MOV, WebM).".
Proof. repeat split. Qed.

(** The service call throws a quota error: the error screen shows the
    quota message. *)
Example quota_error :
  let w := mkWorld "key" (fun _ => Some "data:video/mp4;base64,AAAA")
             (fun _ _ => inl "429: quota exhausted for this project")
             (fun _ => inr sample_document) (fun _ => 0%Z) in
  let s := startAnalysis_resume (snd (analyzeVideoWithGemini w sample_file))
             sample_analyzing in
  appState s = ERROR /\
  errorMsg s = "API quota exceeded. Please try again later.".
Proof. repeat split. Qed.

(** The sample session ends with one incident in the table and two lines
    in the CSV export. *)
Example sample_session_exports :
  handleExportCSV [mkIncident "inc-0-1700000000000" "00:05" 5 HIGH "x"]
    (filters sample_results) =
  ("Timestamp,Severity,Description" ++ LF
     ++ "00:05,High," ++ DQUOTE ++ "x" ++ DQUOTE)%string.
Proof. reflexivity. Qed.

(* ================================================================= *)
(** * Further properties *)

(* ----------------------------------------------------------------- *)
(** ** The incident table: filters *)

Lemma filter_comm A (p q : A -> bool) l :
  filter p (filter q l) = filter q (filter p l).
Proof.
  induction l as [|x l IH]; [reflexivity|]. cbn [filter].
  destruct (p x) eqn:Px, (q x) eqn:Qx; cbn [filter];
    rewrite ?Px, ?Qx, IH; reflexivity.
Qed.

Lemma filter_all A (p : A -> bool) l :
  (forall x, In x l -> p x = true) -> filter p l = l.
Proof.
  induction l as [|x l IH]; intros H; [reflexivity|]. cbn [filter].
  rewrite (H x) by now left. f_equal. apply IH. intros; apply H; now right.
Qed.

Lemma filter_none A (p : A -> bool) l :
  (forall x, In x l -> p x = false) -> filter p l = [].
Proof.
  induction l as [|x l IH]; intros H; [reflexivity|]. cbn [filter].
  rewrite (H x) by now left. apply IH. intros; apply H; now right.
Qed.

Lemma filter_sorted A (R : A -> A -> Prop) (p : A -> bool) l :
  StronglySorted R l -> Sorted R (filter p l).
Proof.
  intros H. apply StronglySorted_Sorted.
  induction H as [|x l Hs IH Hall]; cbn [filter]; [constructor|].
  destruct (p x); [|exact IH]. constructor; [exact IH|].
  rewrite Forall_forall in *. intros y Hy. apply Hall.
  now apply filter_In in Hy.
Qed.

(** X1. The table under any filter selection is the table with every
    filter on, minus the rows of the severities switched off: filtering
    and sorting can be done in either order, so hiding a severity never
    reorders the remaining rows. *)
Theorem filteredIncidents_hides_rows
    (incidents : list Incident) (filters : FilterState) :
  filteredIncidents incidents filters =
  filter (fun inc => filter_get filters (severity inc))
    (filteredIncidents incidents all_true).
Proof.
  apply (sorted_stable_unique seconds).
  - apply (sort_sorted seconds).
  - apply filter_sorted. apply Sorted_StronglySorted.
    + intros a b c. lia.
    + apply (sort_sorted seconds).
  - intros k. unfold filteredIncidents.
    etransitivity; [apply (sort_stable seconds)|].
    rewrite filter_comm. symmetry. rewrite filter_comm.
    change (fun inc => filter_get filters (severity inc))
      with (visible filters).
    f_equal. etransitivity; [apply (sort_stable seconds)|].
    f_equal. apply filter_all. intros [i t s sv d] _. now destruct sv.
Qed.

(** X2. A filter button flips its own severity and no other, and pressing
    it twice restores the selection. *)
Theorem toggle_flips_one_severity (filters : FilterState) (sev : Severity) :
  filter_get (toggle filters sev) sev = negb (filter_get filters sev)
  /\ (forall other, other <> sev ->
        filter_get (toggle filters sev) other = filter_get filters other)
  /\ toggle (toggle filters sev) sev = filters.
Proof.
  destruct filters as [l m h]. split; [|split].
  - now destruct sev.
  - intros other H. destruct sev, other; try reflexivity; now elim H.
  - destruct sev; cbn; now rewrite negb_involutive.
Qed.

(** X3. With every filter on the table drops nothing: it is a
    rearrangement of the whole incident list. With every filter off it is
    empty. In between it never has more rows than there are incidents. *)
Theorem filteredIncidents_extremes (incidents : list Incident) :
  Permutation (filteredIncidents incidents all_true) incidents
  /\ filteredIncidents incidents (mkFilterState false false false) = []
  /\ forall filters,
       (List.length (filteredIncidents incidents filters)
          <= List.length incidents)%nat.
Proof.
  split; [|split].
  - rewrite filteredIncidents_perm.
    rewrite filter_all; [reflexivity|].
    intros [i t s sv d] _. now destruct sv.
  - unfold filteredIncidents. rewrite filter_none; [reflexivity|].
    intros [i t s sv d] _. now destruct sv.
  - intros filters.
    rewrite (Permutation_length (filteredIncidents_perm incidents filters)).
    apply filter_length_le.
Qed.

(* ----------------------------------------------------------------- *)
(** ** The incident table: the highlighted row *)

Lemma NoDup_map_eq A B (f : A -> B) l a b :
  NoDup (map f l) -> In a l -> In b l -> f a = f b -> a = b.
Proof.
  induction l as [|x l IH]; cbn; intros Hnd Ha Hb E; [easy|].
  inversion Hnd as [|? ? Hx Hl]; subst.
  destruct Ha as [->|Ha], Hb as [->|Hb]; auto.
  - elim Hx. rewrite E. now apply in_map.
  - elim Hx. rewrite <- E. now apply in_map.
Qed.

Lemma NoDup_all_equal A (a : A) l :
  NoDup l -> (forall x, In x l -> x = a) -> (List.length l <= 1)%nat.
Proof.
  intros Hnd H. destruct l as [|x [|y l]]; cbn; try lia.
  assert (x = a) by (apply H; now left).
  assert (y = a) by (apply H; right; now left).
  subst. inversion Hnd as [|? ? Hx _]. elim Hx. now left.
Qed.

Lemma isActive_iff incidents currentTime inc :
  NoDup (map id incidents) -> In inc incidents ->
  isActive incidents currentTime inc = true <->
  activeIncident incidents currentTime = Some inc.
Proof.
  intros Hnd Hin. unfold isActive, activeIncidentId.
  destruct (activeIncident incidents currentTime) as [a|] eqn:E; cbn.
  - split.
    + intros H%String.eqb_eq. f_equal.
      apply NoDup_map_eq with (f := id) (l := incidents); auto.
      unfold activeIncident in E. now apply find_some in E.
    + intros [= ->]. apply String.eqb_refl.
  - split; discriminate.
Qed.

(** X4. When the incidents carry pairwise distinct ids, as the analysis
    client makes them, a row is highlighted exactly if it shows the active
    incident; so at most one row of the table is highlighted, and none
    when the filters hide the active incident. *)
Theorem at_most_one_row_highlighted
    (incidents : list Incident) (currentTime : Q) (filters : FilterState) :
  NoDup (map id incidents) ->
  let shown := filteredIncidents incidents filters in
  (forall inc, In inc incidents ->
     (isActive incidents currentTime inc = true <->
      activeIncident incidents currentTime = Some inc))
  /\ (List.length (filter (isActive incidents currentTime) shown) <= 1)%nat
  /\ (forall a, activeIncident incidents currentTime = Some a ->
        filter_get filters (severity a) = false ->
        filter (isActive incidents currentTime) shown = []).
Proof.
  intros Hnd shown.
  assert (Hshown : forall x, In x shown -> In x incidents)
    by (intros x Hx; now apply filteredIncidents_In in Hx).
  split; [|split].
  - intros inc Hin. now apply isActive_iff.
  - destruct (activeIncident incidents currentTime) as [a|] eqn:E.
    + apply NoDup_all_equal with (a := a).
      * apply NoDup_filter.
        apply (Permutation_NoDup
                 (Permutation_sym (filteredIncidents_perm incidents filters))).
        apply NoDup_filter. now apply NoDup_map_inv in Hnd.
      * intros x [Hx Hact]%filter_In.
        apply isActive_iff in Hact; auto. congruence.
    + rewrite filter_none; [cbn; lia|].
      intros x Hx. destruct (isActive incidents currentTime x) eqn:Hact; auto.
      apply isActive_iff in Hact; auto. congruence.
  - intros a E Hhidden. apply filter_none. intros x Hx.
    destruct (isActive incidents currentTime x) eqn:Hact; auto.
    apply isActive_iff in Hact; auto.
    assert (x = a) by congruence. subst x.
    apply filteredIncidents_In in Hx. destruct Hx as [_ Hvis]. congruence.
Qed.

Lemma at_most_one_row_highlighted_witness :
  let a := mkIncident "inc-0-7" "00:30" 30 LOW "a" in
  let b := mkIncident "inc-1-7" "00:31" 31 HIGH "b" in
  (List.length (filter (isActive [a; b] (31 # 1))
                  (filteredIncidents [a; b] all_true)) <= 1)%nat.
Proof.
  intros a b.
  apply (@at_most_one_row_highlighted [a; b] (31 # 1) all_true).
  repeat constructor; cbn; intuition discriminate.
Defined.

(* ----------------------------------------------------------------- *)
(** ** Exports: lines *)

Lemma count_LF_app a b :
  count_LF (a ++ b)%string = (count_LF a + count_LF b)%nat.
Proof. induction a as [|c a IH]; cbn; [reflexivity | rewrite IH; lia]. Qed.

Lemma count_LF_join sep l :
  (forall x, In x l -> count_LF x = 0%nat) ->
  count_LF (join sep l) = (pred (List.length l) * count_LF sep)%nat.
Proof.
  induction l as [|x l IH]; intros H; [reflexivity|].
  destruct l as [|y l]; [cbn; rewrite (H x) by (now left); lia|].
  change (join sep (x :: y :: l)) with (x ++ sep ++ join sep (y :: l))%string.
  rewrite !count_LF_app, IH by (intros; apply H; now right).
  rewrite (H x) by now left. cbn [List.length pred]. lia.
Qed.

(** X5. When no timestamp and no description contains a line feed, the
    CSV text has exactly one line more than the table has rows (the
    header), and the clipboard text has one line per row. *)
Theorem exports_have_one_line_per_row
    (incidents : list Incident) (filters : FilterState) :
  (forall inc, In inc incidents ->
     count_LF (timestamp inc) = 0%nat /\ count_LF (description inc) = 0%nat) ->
  let rows := List.length (filteredIncidents incidents filters) in
  count_LF (handleExportCSV incidents filters) = rows
  /\ count_LF (handleCopy incidents filters) = pred rows.
Proof.
  intros Hclean rows.
  assert (Hshown : forall inc, In inc (filteredIncidents incidents filters) ->
            count_LF (timestamp inc) = 0%nat /\
            count_LF (description inc) = 0%nat)
    by (intros inc Hin; apply Hclean; now apply filteredIncidents_In in Hin).
  assert (Hsev : forall sv, count_LF (Severity_value sv) = 0%nat)
    by (now intros []).
  split.
  - unfold handleExportCSV. rewrite count_LF_join.
    + cbn [List.length pred]. rewrite !length_map. cbn. unfold rows. lia.
    + intros x [<-|Hx]; [reflexivity|].
      apply in_map_iff in Hx. destruct Hx as (r & <- & Hr).
      apply in_map_iff in Hr. destruct Hr as (inc & <- & Hinc).
      destruct (Hshown inc Hinc) as [Ht Hd]. unfold csv_row.
      rewrite count_LF_join; [cbn; lia|].
      intros y [<-|[<-|[<-|[]]]]; auto.
      rewrite !count_LF_app, Hd. reflexivity.
  - unfold handleCopy. rewrite count_LF_join.
    + rewrite length_map. cbn. unfold rows. lia.
    + intros x Hx. apply in_map_iff in Hx. destruct Hx as (inc & <- & Hinc).
      destruct (Hshown inc Hinc) as [Ht Hd]. unfold copy_line.
      rewrite !count_LF_app, Ht, Hd, Hsev. reflexivity.
Qed.

Lemma exports_have_one_line_per_row_witness :
  count_LF (handleExportCSV
              [mkIncident "inc-0-7" "00:30" 30 LOW "a";
               mkIncident "inc-1-7" "00:31" 31 HIGH "b"] all_true) = 2%nat.
Proof.
  apply (@exports_have_one_line_per_row
           [mkIncident "inc-0-7" "00:30" 30 LOW "a";
            mkIncident "inc-1-7" "00:31" 31 HIGH "b"] all_true).
  intros inc [<-|[<-|[]]]; split; reflexivity.
Defined.

(* ----------------------------------------------------------------- *)
(** ** The playback controller: play, pause and mute *)

(** X6. With an element mounted, the play button asks a paused element to
    play and pauses a playing one, and leaves the position alone. When the
    platform lets the element play, the play icon agrees with the element
    afterwards and a second press undoes the first; when the platform
    blocks the request, the icon says "playing" over an element that is
    still paused. *)
Theorem togglePlay_flips_playback (p : Player) (el : MediaElement) :
  videoRef p = Some el ->
  (exists el1,
      videoRef (togglePlay true p) = Some el1 /\
      el_paused el1 = negb (el_paused el) /\
      isPlaying (togglePlay true p) = negb (el_paused el1) /\
      el_currentTime el1 = el_currentTime el /\
      el_duration el1 = el_duration el /\
      el_muted el1 = el_muted el)
  /\ (exists el2,
        videoRef (togglePlay true (togglePlay true p)) = Some el2 /\
        el_paused el2 = el_paused el /\
        isPlaying (togglePlay true (togglePlay true p)) = negb (el_paused el))
  /\ (el_paused el = true ->
      videoRef (togglePlay false p) = Some el /\
      isPlaying (togglePlay false p) = true).
Proof.
  intros H. unfold togglePlay. rewrite H.
  destruct el as [t d paused m]. destruct paused; cbn.
  - split; [|split].
    + eexists; repeat split.
    + eexists; repeat split.
    + intros _. split; reflexivity.
  - split; [|split].
    + eexists; repeat split.
    + eexists; repeat split.
    + discriminate.
Qed.

Lemma togglePlay_flips_playback_witness :
  isPlaying (togglePlay false player_at_10) = true /\
  option_map el_paused (videoRef (togglePlay false player_at_10)) = Some true.
Proof.
  pose proof (@togglePlay_flips_playback player_at_10
                (mkMedia (clamp 100 10) (Num 100) true false) eq_refl)
    as (_ & _ & H).
  destruct (H eq_refl) as [Hv Hp]. split; [exact Hp | now rewrite Hv].
Defined.

(** X7. From the first commit on, whatever the user and the element do,
    the player has its element and the mute icon agrees with the element's
    muted flag. *)
Theorem mute_icon_matches_element
    (allowed : bool) (seekTo : option SeekRequest)
    (events : list player_event) :
  let p := fold_left player_step events
             (commit allowed seekTo VideoPlayer.initial) in
  exists el, videoRef p = Some el /\ el_muted el = isMuted p.
Proof.
  cbv zeta.
  assert (Hstep : forall p e,
            (exists el, videoRef p = Some el /\ el_muted el = isMuted p) ->
            exists el, videoRef (player_step p e) = Some el /\
                       el_muted el = isMuted (player_step p e)).
  { intros p e (el & Hv & Hm).
    destruct e; cbn;
      unfold commit, effect_due, seekTo_effect, togglePlay, handleTimeUpdate,
        handleLoadedMetadata, handleSeek, skip, toggleMute, handleEnded,
        metadata_loaded, set_currentTime, play;
      rewrite ?Hv; cbn.
    - destruct (committed_seekTo p) as [old|]; cbn;
        [destruct (negb (Object_is old seekTo0))|];
        destruct seekTo0 as [req|]; cbn; rewrite ?Hv; cbn; eauto;
        destruct (el_duration el); cbn;
        destruct (el_paused el); cbn; try destruct allowed0; cbn; eauto.
    - destruct (el_paused el); cbn; [destruct allowed0|]; cbn; eauto.
    - eauto.
    - eauto.
    - destruct (el_duration el); cbn; eauto.
    - destruct (el_duration el); cbn; eauto.
    - eauto.
    - eauto.
    - eauto.
    - eauto. }
  revert seekTo.
  induction events as [|e events IH] using rev_ind; intros seekTo.
  - cbn. unfold commit, effect_due, seekTo_effect. cbn.
    destruct seekTo as [req|]; cbn; [destruct allowed|]; cbn; eauto.
  - rewrite fold_left_app. cbn. apply Hstep. apply IH.
Qed.

(* ----------------------------------------------------------------- *)
(** ** The playback controller: skipping *)

Lemma clamp_inside d t : (0 <= t)%Q -> (t <= d)%Q -> (clamp d t == t)%Q.
Proof.
  intros H0 Hd. unfold clamp. rewrite (Q.min_r _ _ Hd). now apply Q.max_r.
Qed.

Lemma clamp_below d t : (t <= 0)%Q -> (0 <= d)%Q -> (clamp d t == 0)%Q.
Proof.
  intros H0 Hd. unfold clamp.
  rewrite Q.min_r by (now apply Qle_trans with 0%Q). now apply Q.max_l.
Qed.

Lemma clamp_compat d t t' : (t == t')%Q -> (clamp d t == clamp d t')%Q.
Proof. intros E. unfold clamp. now rewrite E. Qed.

Lemma clamp_nonneg d t :
  (0 <= t)%Q -> (0 <= d)%Q -> (clamp d t == Qmin d t)%Q.
Proof.
  intros Ht Hd. unfold clamp. apply Q.max_r. now apply Q.min_glb.
Qed.

(** X8. Skipping back by [d] and then forward by [d] brings the element
    back to where it was when it stood at least [d] seconds into the
    video. Nearer to the start the backward skip stops at 0, and the pair
    of skips leaves the element at second [d], or at the end of the video
    when the video is shorter than [d]. *)
Theorem skip_back_then_forward
    (p : Player) (el : MediaElement) (dur d : Q) :
  videoRef p = Some el ->
  el_duration el = Num dur ->
  (0 <= d)%Q -> (0 <= el_currentTime el)%Q -> (el_currentTime el <= dur)%Q ->
  exists t,
    position (fst (skip d (fst (skip (- d) p)))) = Some t /\
    ((d <= el_currentTime el)%Q -> (t == el_currentTime el)%Q) /\
    ((el_currentTime el <= d)%Q -> (t == Qmin dur d)%Q).
Proof.
  intros Hv Hdur Hd H0 Hle.
  assert (Hdurpos : (0 <= dur)%Q)
    by now apply Qle_trans with (el_currentTime el).
  unfold position, skip. rewrite Hv. cbn [fst videoRef with_video].
  unfold set_currentTime. rewrite Hdur. cbn.
  eexists. split; [reflexivity|]. split.
  - intros Hfar.
    rewrite (clamp_compat dur (t' := el_currentTime el)).
    + now apply clamp_inside.
    + rewrite clamp_inside.
      * ring.
      * apply (Qplus_le_l _ _ d). ring_simplify. exact Hfar.
      * apply Qle_trans with (el_currentTime el); [|exact Hle].
        apply (Qplus_le_l _ _ d). ring_simplify.
        rewrite <- (Qplus_0_r (el_currentTime el)) at 1.
        now apply Qplus_le_r.
  - intros Hnear.
    rewrite (clamp_compat dur (t' := d)).
    + now apply clamp_nonneg.
    + rewrite clamp_below.
      * ring.
      * apply (Qplus_le_l _ _ d). ring_simplify. exact Hnear.
      * exact Hdurpos.
Qed.

Lemma skip_back_then_forward_witness :
  exists t,
    position
      (fst (skip 5 (fst (skip (- (5)) (fst (handleSeek 2 player_at_10))))))
      = Some t /\ (t == Qmin 100 5)%Q.
Proof.
  destruct (@skip_back_then_forward (fst (handleSeek 2 player_at_10))
              (mkMedia (clamp 100 2) (Num 100) true false) 100 5
              eq_refl eq_refl) as (t & Ht & _ & Hnear).
  - vm_compute; discriminate.
  - vm_compute; discriminate.
  - vm_compute; discriminate.
  - exists t. split; [exact Ht|]. apply Hnear; vm_compute; discriminate.
Defined.

(* ----------------------------------------------------------------- *)
(** ** The playback controller: the clock display *)

Lemma Qfloor_div_60 t : Qfloor (t / 60) = (Qfloor t / 60)%Z.
Proof.
  destruct t as [a b]. unfold Qdiv, Qmult, Qfloor. cbn [Qinv Qnum Qden].
  cbn. rewrite Z.mul_1_r, Pos2Z.inj_mul. symmetry. apply Z.div_div; lia.
Qed.

Lemma Qfloor_plus_Z x k : Qfloor (x + inject_Z k) = (Qfloor x + k)%Z.
Proof.
  destruct x as [a b]. unfold Qplus, inject_Z, Qfloor. cbn [Qnum Qden].
  rewrite Pos.mul_1_r, Z.mul_1_r. apply Z.div_add. lia.
Qed.

Lemma Qfloor_nonneg t : (0 <= t)%Q -> (0 <= Qfloor t)%Z.
Proof. intros H. apply (Qfloor_resp_le 0 t H). Qed.

Lemma trunc_nonneg t : (0 <= t)%Q -> trunc (t / 60) = (Qfloor t / 60)%Z.
Proof.
  intros H. unfold trunc.
  assert (E : Qle_bool 0 (t / 60) = true).
  { apply Qle_bool_iff. apply Qle_shift_div_l; [reflexivity|].
    now rewrite Qmult_0_l. }
  rewrite E. apply Qfloor_div_60.
Qed.

Lemma Qfloor_remainder_60 t :
  (0 <= t)%Q -> Qfloor (remainder t 60) = (Qfloor t mod 60)%Z.
Proof.
  intros H. unfold remainder. rewrite (trunc_nonneg H).
  set (m := (Qfloor t / 60)%Z).
  assert (E : (t - 60 * inject_Z m == t + inject_Z (- (60 * m)))%Q).
  { rewrite inject_Z_opp, inject_Z_mult. reflexivity. }
  rewrite E, Qfloor_plus_Z, Z.mod_eq by lia. unfold m. lia.
Qed.

Lemma length_append a b :
  String.length (a ++ b)%string = (String.length a + String.length b)%nat.
Proof. induction a as [|c a IH]; cbn; [reflexivity | now rewrite IH]. Qed.

Lemma two_digits z :
  (0 <= z < 100)%Z -> String.length (padStart2 (string_of_integer z)) = 2%nat.
Proof.
  intros H. rewrite <- (Z2Nat.id z) by lia.
  assert (Hn : (Z.to_nat z < 100)%nat) by lia.
  revert Hn. generalize (Z.to_nat z). intros n Hn.
  do 100 (destruct n as [|n]; [reflexivity|]). lia.
Qed.

(** X9. For a finite time that is not negative, the clock of the player
    shows the whole seconds elapsed, split into minutes and a seconds field
    between 00 and 59, each padded to two digits; below 100 minutes the
    text is exactly five characters long. A not-a-number time is shown as
    00:00. The guard covers not-a-number only: an infinite time, which an
    element can report as its duration, is shown as [Infinity:NaN]. *)
Theorem formatTime_minutes_and_seconds (t : Q) :
  (0 <= t)%Q ->
  formatTime (EFinite t) =
    (padStart2 (string_of_integer (Qfloor t / 60)) ++ ":"
       ++ padStart2 (string_of_integer (Qfloor t mod 60)))%string
  /\ (60 * (Qfloor t / 60) + Qfloor t mod 60 = Qfloor t)%Z
  /\ (0 <= Qfloor t mod 60 < 60)%Z
  /\ ((t < 6000)%Q -> String.length (formatTime (EFinite t)) = 5%nat)
  /\ formatTime ENaN = "00:00"
  /\ formatTime (EInfinity false) = "Infinity:NaN"
  /\ formatTime (EInfinity true) = "-Infinity:NaN".
Proof.
  intros H.
  assert (E : formatTime (EFinite t) =
    (padStart2 (string_of_integer (Qfloor t / 60)) ++ ":"
       ++ padStart2 (string_of_integer (Qfloor t mod 60)))%string).
  { unfold formatTime. now rewrite Qfloor_div_60, (Qfloor_remainder_60 H). }
  pose proof (Qfloor_nonneg H) as Hf.
  split; [exact E|]. split; [|split; [|split]].
  - symmetry. apply Z.div_mod. lia.
  - apply Z.mod_pos_bound. lia.
  - intros Hlt. rewrite E, !length_append.
    assert (Hz : (Qfloor t < 6000)%Z).
    { rewrite Zlt_Qlt.
      apply Qle_lt_trans with t; [apply Qfloor_le | exact Hlt]. }
    assert (Hs : (0 <= Qfloor t mod 60 < 100)%Z)
      by (pose proof (Z.mod_pos_bound (Qfloor t) 60); lia).
    assert (Hm : (0 <= Qfloor t / 60 < 100)%Z)
      by (split; [apply Z.div_pos; lia | apply Z.div_lt_upper_bound; lia]).
    now rewrite (two_digits Hs), (two_digits Hm).
  - split; [reflexivity|]. split; reflexivity.
Qed.

Lemma formatTime_minutes_and_seconds_witness :
  formatTime (EFinite (1255 # 10)) = "02:05".
Proof.
  destruct (@formatTime_minutes_and_seconds (1255 # 10)) as (E & _).
  - vm_compute; discriminate.
  - rewrite E. reflexivity.
Defined.

(* ----------------------------------------------------------------- *)
(** ** The playback controller: timeline markers *)

Lemma Qeq_bool_false_of_pos d : (0 < d)%Q -> Qeq_bool d 0 = false.
Proof.
  intros H. destruct (Qeq_bool d 0) eqn:E; [|reflexivity].
  apply Qeq_bool_iff in E. rewrite E in H. now apply Qlt_irrefl in H.
Qed.

(** X10. A timeline marker is left out exactly when its position is not a
    number: while the duration is not a number, or for an incident at
    second 0 while the duration is 0. Once a positive duration is known
    every incident has a marker at [seconds / duration * 100] percent; it
    lies between 0 and 100 for an incident inside the video and beyond 100
    for an incident past its end. *)
Theorem markers_on_the_timeline :
  (forall seconds duration,
      marker seconds duration = None <->
      duration = NaN \/
      (exists d, duration = Num d /\ (d == 0)%Q /\ seconds = 0%Z))
  /\ (forall seconds d,
        (0 < d)%Q ->
        marker seconds (Num d) = Some (EFinite (inject_Z seconds / d * 100))
        /\ ((0 <= seconds)%Z -> (inject_Z seconds <= d)%Q ->
            (0 <= inject_Z seconds / d * 100 <= 100)%Q)
        /\ ((d < inject_Z seconds)%Q ->
            (100 < inject_Z seconds / d * 100)%Q)).
Proof.
  split.
  - intros seconds duration. unfold marker, leftPos.
    destruct duration as [|d]; [split; auto|].
    destruct (Qeq_bool d 0) eqn:E.
    + apply Qeq_bool_iff in E.
      destruct (Z.eqb_spec seconds 0) as [->|Hs].
      * split; [|reflexivity]. intros _. right. now exists d.
      * split; [discriminate|].
        intros [H|(d' & _ & _ & H)]; [discriminate | contradiction].
    + split; [discriminate|].
      intros [H|(d' & [= <-] & Hd & _)]; [discriminate|].
      apply Qeq_bool_iff in Hd. congruence.
  - intros seconds d Hd. split; [|split].
    + unfold marker, leftPos. now rewrite (Qeq_bool_false_of_pos Hd).
    + intros Hs Hle. split.
      * apply Qmult_le_0_compat; [|discriminate].
        apply Qle_shift_div_l; [exact Hd|]. rewrite Qmult_0_l.
        unfold Qle. cbn. lia.
      * apply Qle_trans with (1 * 100)%Q; [|discriminate].
        apply Qmult_le_compat_r; [|discriminate].
        apply Qle_shift_div_r; [exact Hd|]. now rewrite Qmult_1_l.
    + intros Hlt.
      apply Qle_lt_trans with (1 * 100)%Q; [discriminate|].
      apply Qmult_lt_compat_r; [reflexivity|].
      apply Qlt_shift_div_l; [exact Hd|]. now rewrite Qmult_1_l.
Qed.

(* ----------------------------------------------------------------- *)
(** ** The analysis client: one attempt *)

(** X11. One call reads the file at most once and calls the service at
    most once, in that order, and never calls the service without having
    read the file: the effects of a call are nothing, the file read alone,
    or the file read followed by one request carrying the file's media
    type. A call that returns a result has made exactly that one request. *)
Theorem analyze_makes_one_attempt (w : World) (f : File) :
  let effects := fst (analyzeVideoWithGemini w f) in
  (effects = [] \/ effects = [ReadFile f] \/
   exists data, effects = [ReadFile f; GenerateContent (file_type f) data])
  /\ (forall result,
        snd (analyzeVideoWithGemini w f) = Returned result ->
        exists data,
          effects = [ReadFile f; GenerateContent (file_type f) data]).
Proof.
  cbv zeta. unfold analyzeVideoWithGemini.
  destruct (negb (truthy_string (API_KEY w))); [split; [auto | discriminate]|].
  destruct (negb (startsWith (file_type f) "video/"));
    [split; [auto | discriminate]|].
  destruct (file_size f >? GeminiService.maxSize)%Z;
    [split; [auto | discriminate]|].
  unfold fileToGenerativePart, generate.
  destruct (readAsDataURL w f) as [url|]; cbn;
    [|split; [auto | discriminate]].
  destruct (generateContent w _ _) as [m|text]; cbn;
    [split; [eauto | discriminate]|].
  pose proof (respond_pure w text) as Hpure.
  destruct (respond w text) as [t [r|m]]; cbn in *; subst t;
    split; eauto; discriminate.
Qed.

(** X12. When the file cannot be read, the service is not called and the
    call fails with the file-reading message. *)
Theorem unreadable_file_is_not_sent (w : World) (f : File) :
  truthy_string (API_KEY w) = true ->
  startsWith (file_type f) "video/" = true ->
  (file_size f <=? 50 * 1024 * 1024)%Z = true ->
  readAsDataURL w f = None ->
  analyzeVideoWithGemini w f =
  ([ReadFile f], Threw "Failed to read the video file. Please try again.").
Proof.
  intros Hkey Htype Hsize Hread.
  unfold analyzeVideoWithGemini, GeminiService.maxSize.
  rewrite Hkey, Htype. cbn [negb].
  rewrite gtb_false by now apply Z.leb_le.
  unfold fileToGenerativePart. rewrite Hread. reflexivity.
Qed.

Lemma unreadable_file_is_not_sent_witness :
  analyzeVideoWithGemini
    (mkWorld "key" (fun _ => None) (fun _ _ => inr "response")
       (fun _ => inr sample_document) (fun _ => 0%Z)) sample_file =
  ([ReadFile sample_file],
   Threw "Failed to read the video file. Please try again.").
Proof.
  apply unreadable_file_is_not_sent; reflexivity.
Defined.

(* ----------------------------------------------------------------- *)
(** ** The analysis client: the data URL *)

Lemma split_comma_no_comma s : no_comma s = true -> split_comma s = [s].
Proof.
  induction s as [|c s IH]; intros H; [reflexivity|].
  cbn [no_comma] in H. apply andb_true_iff in H. destruct H as [Hc Hs].
  apply negb_true_iff in Hc. cbn [split_comma].
  now rewrite Hc, (IH Hs).
Qed.

Lemma split_comma_prefix prefix rest :
  no_comma prefix = true ->
  split_comma (prefix ++ "," ++ rest)%string = prefix :: split_comma rest.
Proof.
  induction prefix as [|c s IH]; intros H; [reflexivity|].
  cbn [no_comma] in H. apply andb_true_iff in H. destruct H as [Hc Hs].
  apply negb_true_iff in Hc.
  change (String c s ++ "," ++ rest)%string
    with (String c (s ++ "," ++ rest)%string).
  cbn [split_comma]. now rewrite Hc, (IH Hs).
Qed.

(** X13. For a data URL made of a comma-free prefix, a comma and a
    comma-free payload (the base64 alphabet has no comma),
    [fileToGenerativePart] reads the file once and yields exactly the
    payload. *)
Theorem fileToGenerativePart_strips_prefix
    (w : World) (f : File) (prefix payload : string) :
  no_comma prefix = true ->
  no_comma payload = true ->
  readAsDataURL w f = Some (prefix ++ "," ++ payload)%string ->
  fileToGenerativePart w f = ([ReadFile f], Returned (Some payload)).
Proof.
  intros Hp Hd Hread. unfold fileToGenerativePart. rewrite Hread.
  now rewrite (@split_comma_prefix prefix payload Hp),
    (@split_comma_no_comma payload Hd).
Qed.

Lemma fileToGenerativePart_strips_prefix_witness :
  fileToGenerativePart sample_world sample_file =
  ([ReadFile sample_file], Returned (Some "AAAA")).
Proof.
  apply (@fileToGenerativePart_strips_prefix sample_world sample_file
           "data:video/mp4;base64" "AAAA"); reflexivity.
Defined.

(* ----------------------------------------------------------------- *)
(** ** The analysis client: service errors *)

Lemma prefix_app p rest : String.prefix p (p ++ rest)%string = true.
Proof.
  induction p as [|c p IH]; [now destruct rest|]. cbn.
  destruct (ascii_dec c c) as [_|H]; [exact IH | now elim H].
Qed.

Lemma includes_app pre p post :
  includes (pre ++ p ++ post)%string p = true.
Proof.
  induction pre as [|c pre IH].
  - cbn [append]. destruct (p ++ post)%string eqn:E; cbn [includes];
      rewrite <- E, prefix_app; reflexivity.
  - cbn [append includes]. rewrite IH. apply orb_true_r.
Qed.

Lemma analyze_after_service_error w f url message :
  truthy_string (API_KEY w) = true ->
  startsWith (file_type f) "video/" = true ->
  (file_size f <=? 50 * 1024 * 1024)%Z = true ->
  readAsDataURL w f = Some url ->
  generateContent w (file_type f) (nth_error (split_comma url) 1)
    = inl message ->
  analyzeVideoWithGemini w f =
  ([ReadFile f;
    GenerateContent (file_type f) (nth_error (split_comma url) 1)],
   Threw (rethrown message)).
Proof.
  intros Hkey Htype Hsize Hread Hgen.
  unfold analyzeVideoWithGemini, GeminiService.maxSize.
  rewrite Hkey, Htype. cbn [negb].
  rewrite gtb_false by now apply Z.leb_le.
  unfold fileToGenerativePart, generate. rewrite Hread.
  unfold bind, perform. rewrite Hgen. reflexivity.
Qed.

(** X14. An error thrown by the service call is classified by what its
    message mentions, in this order: a message that mentions
    API_KEY_INVALID anywhere is reported as an invalid key; otherwise one
    that mentions quota is reported as an exhausted quota; a message that
    mentions none of the keywords is shown as it is, or replaced by the
    generic text when it is empty. Whatever the message, the application
    ends on the error screen showing the reported text. *)
Theorem service_errors_are_classified
    (w : World) (f : File) (url message : string) (s : Model) :
  truthy_string (API_KEY w) = true ->
  startsWith (file_type f) "video/" = true ->
  (file_size f <=? 50 * 1024 * 1024)%Z = true ->
  readAsDataURL w f = Some url ->
  generateContent w (file_type f) (nth_error (split_comma url) 1)
    = inl message ->
  let failure := snd (analyzeVideoWithGemini w f) in
  ((exists pre post, message = (pre ++ "API_KEY_INVALID" ++ post)%string) ->
     failure =
     Threw "Invalid API key. Please check your Gemini API key configuration.")
  /\ ((exists pre post, message = (pre ++ "quota" ++ post)%string) ->
      includes message "API_KEY_INVALID" = false ->
      failure = Threw "API quota exceeded. Please try again later.")
  /\ (includes message "API_KEY_INVALID" = false ->
      includes message "quota" = false ->
      includes message "Failed to read file" = false ->
      failure =
      Threw (or_string message
        "Failed to analyze video. Please try again or check the file format."))
  /\ (exists shown,
        failure = Threw shown /\
        appState (startAnalysis_resume failure s) = ERROR /\
        errorMsg (startAnalysis_resume failure s) = shown).
Proof.
  intros Hkey Htype Hsize Hread Hgen failure. unfold failure.
  rewrite (analyze_after_service_error _ _ Hkey Htype Hsize Hread Hgen).
  cbn [snd]. split; [|split; [|split]].
  - intros (pre & post & ->). unfold rethrown. now rewrite includes_app.
  - intros (pre & post & ->) Hkeyword. unfold rethrown.
    now rewrite Hkeyword, includes_app.
  - intros H1 H2 H3. unfold rethrown. now rewrite H1, H2, H3.
  - exists (rethrown message). split; [reflexivity|].
    cbn. split; [reflexivity|]. unfold or_string.
    now rewrite rethrown_truthy.
Qed.

Lemma service_errors_are_classified_witness :
  snd (analyzeVideoWithGemini
         (mkWorld "key" (fun _ => Some "data:video/mp4;base64,AAAA")
            (fun _ _ => inl "429: quota exhausted")
            (fun _ => inr sample_document) (fun _ => 0%Z)) sample_file)
  = Threw "API quota exceeded. Please try again later.".
Proof.
  pose proof (@service_errors_are_classified
                (mkWorld "key" (fun _ => Some "data:video/mp4;base64,AAAA")
                   (fun _ _ => inl "429: quota exhausted")
                   (fun _ => inr sample_document) (fun _ => 0%Z))
                sample_file "data:video/mp4;base64,AAAA"
                "429: quota exhausted" App.initial
                eq_refl eq_refl eq_refl eq_refl eq_refl) as (_ & H & _).
  apply H; [|reflexivity].
  exists "429: ", " exhausted". reflexivity.
Defined.

(* ----------------------------------------------------------------- *)
(** ** The analysis client: documents that are turned down *)

Lemma map_incidents_null w items : forall index,
  In JNull items ->
  map_incidents w index items = throw (TypeError_null "timestamp").
Proof.
  induction items as [|inc rest IH]; intros index H; [easy|].
  cbn [map_incidents].
  assert (Hcase : inc = JNull \/ inc <> JNull)
    by (destruct inc; (now left) || (right; discriminate)).
  destruct Hcase as [->|Hn]; [reflexivity|].
  rewrite build_incident_not_null by exact Hn.
  cbn. rewrite IH; [reflexivity|].
  destruct H as [E|H]; [contradiction | exact H].
Qed.

(** X15. A response whose top level is not an object never yields a
    result: [null] fails on the first property read, and an array, a
    string, a number or a boolean fails the shape check. *)
Theorem non_object_document_is_rejected
    (w : World) (f : File) (url text : string) (doc : json) :
  truthy_string (API_KEY w) = true ->
  startsWith (file_type f) "video/" = true ->
  (file_size f <=? 50 * 1024 * 1024)%Z = true ->
  readAsDataURL w f = Some url ->
  generateContent w (file_type f) (nth_error (split_comma url) 1)
    = inr text ->
  truthy_string text = true ->
  JSON_parse w text = inr doc ->
  (forall fields, doc <> JObject fields) ->
  snd (analyzeVideoWithGemini w f) =
  Threw (if json_is_null doc
         then "Cannot read properties of null (reading 'summary')"
         else "Invalid response format from Gemini API").
Proof.
  intros Hkey Htype Hsize Hread Hgen Htext Hparse Hobj.
  rewrite (analyze_after_response _ _ Hkey Htype Hsize Hread Hgen).
  cbn [snd]. unfold handled, respond. rewrite Htext, Hparse.
  destruct doc; try reflexivity. now elim (Hobj fields).
Qed.

Lemma non_object_document_is_rejected_witness :
  snd (analyzeVideoWithGemini
         (mkWorld "key" (fun _ => Some "data:video/mp4;base64,AAAA")
            (fun _ _ => inr "response")
            (fun _ => inr (JArray [])) (fun _ => 0%Z)) sample_file)
  = Threw "Invalid response format from Gemini API".
Proof.
  apply (@non_object_document_is_rejected
           (mkWorld "key" (fun _ => Some "data:video/mp4;base64,AAAA")
              (fun _ _ => inr "response")
              (fun _ => inr (JArray [])) (fun _ => 0%Z))
           sample_file "data:video/mp4;base64,AAAA" "response" (JArray []));
    try reflexivity.
  discriminate.
Defined.

(** X16. A result is never partly filled: when the [incidents] array of
    an otherwise acceptable document holds a [null] anywhere, the whole
    call fails, with the message of the error raised while that incident
    is built. *)
Theorem null_incident_fails_the_call
    (w : World) (f : File) (url text : string)
    (fields : list (string * json)) (items : list json) :
  truthy_string (API_KEY w) = true ->
  startsWith (file_type f) "video/" = true ->
  (file_size f <=? 50 * 1024 * 1024)%Z = true ->
  readAsDataURL w f = Some url ->
  generateContent w (file_type f) (nth_error (split_comma url) 1)
    = inr text ->
  truthy_string text = true ->
  JSON_parse w text = inr (JObject fields) ->
  truthy (lookup "summary" fields) = true ->
  lookup "incidents" fields = Some (JArray items) ->
  In JNull items ->
  snd (analyzeVideoWithGemini w f) =
  Threw "Cannot read properties of null (reading 'timestamp')".
Proof.
  intros Hkey Htype Hsize Hread Hgen Htext Hparse Hsum Hinc Hnull.
  rewrite (analyze_after_response _ _ Hkey Htype Hsize Hread Hgen).
  cbn [snd]. unfold handled, respond. rewrite Htext, Hparse. cbn.
  rewrite Hsum, Hinc. cbn.
  now rewrite (@map_incidents_null w items 0 Hnull).
Qed.

Lemma null_incident_fails_the_call_witness :
  snd (analyzeVideoWithGemini
         (mkWorld "key" (fun _ => Some "data:video/mp4;base64,AAAA")
            (fun _ _ => inr "response")
            (fun _ =>
               inr (JObject [("summary", JString "ok");
                             ("incidents", JArray [JObject []; JNull])]))
            (fun _ => 0%Z)) sample_file)
  = Threw "Cannot read properties of null (reading 'timestamp')".
Proof.
  apply (@null_incident_fails_the_call
           (mkWorld "key" (fun _ => Some "data:video/mp4;base64,AAAA")
              (fun _ _ => inr "response")
              (fun _ =>
                 inr (JObject [("summary", JString "ok");
                               ("incidents", JArray [JObject []; JNull])]))
              (fun _ => 0%Z))
           sample_file "data:video/mp4;base64,AAAA" "response"
           [("summary", JString "ok");
            ("incidents", JArray [JObject []; JNull])]
           [JObject []; JNull]);
    try reflexivity.
  right. now left.
Defined.

(* ----------------------------------------------------------------- *)
(** ** The application: what each screen holds *)

Lemma sample_analyzing_reachable : reachable sample_analyzing.
Proof.
  eapply reach_step; [eapply reach_step; [apply reach_initial|]|].
  - apply (step_select App.initial sample_file). reflexivity.
  - apply step_analyze. reflexivity.
Qed.

Lemma sample_error_reachable : reachable sample_error.
Proof.
  eapply reach_step; [eapply reach_step; [eapply reach_step|] |].
  - apply reach_initial.
  - apply (step_select App.initial sixty_megabytes). reflexivity.
  - apply step_analyze. reflexivity.
  - apply (@step_settled _ sample_world sixty_megabytes); reflexivity.
Qed.

Lemma validateAndSetFile_keeps f s :
  analysisResult (validateAndSetFile f s) = analysisResult s /\
  seekToRequest (validateAndSetFile f s) = seekToRequest s /\
  pending (validateAndSetFile f s) = pending s.
Proof.
  unfold validateAndSetFile.
  destruct (negb _); [now repeat split|]. now destruct (_ >? _)%Z.
Qed.

Lemma screens_hold_content s :
  reachable s ->
  (appState s = RESULTS ->
     exists w f r, file s = Some f /\ analysisResult s = Some r /\
                   snd (analyzeVideoWithGemini w f) = Returned r)
  /\ (appState s <> RESULTS -> analysisResult s = None)
  /\ (appState s = ERROR -> truthy_string (errorMsg s) = true).
Proof.
  induction 1 as [|s e s' Hs (IHr & IHn & IHe) Hstep].
  - split; [discriminate|]. split; [reflexivity | discriminate].
  - pose proof (analyzing_has_pending Hs) as [Hpend _].
    destruct Hstep as [s f H|s H|s H Hf|s w f H Hp|s H|s sec now H|s f H|s u H
                      |s H|s H].
    + rewrite validateAndSetFile_appState, H.
      destruct (validateAndSetFile_keeps f s) as (-> & _ & _).
      split; [discriminate|]. split; [|discriminate].
      intros _. apply IHn. now rewrite H.
    + unfold startAnalysis. destruct (file s); cbn.
      * split; [discriminate|]. split; [|discriminate].
        intros _. apply IHn. now rewrite H.
      * rewrite H. split; [discriminate|]. split; [|discriminate].
        intros _. apply IHn. now rewrite H.
    + cbn. split; [discriminate|]. split; [reflexivity | discriminate].
    + destruct (Hpend H) as [Hfile _]. rewrite Hp in Hfile.
      unfold startAnalysis_resume.
      destruct (snd (analyzeVideoWithGemini w f)) as [r|m] eqn:E; cbn.
      * split; [|split; [now intros [] | discriminate]].
        intros _. now exists w, f, r.
      * split; [discriminate|]. split.
        -- intros _. apply IHn. now rewrite H.
        -- intros _. unfold or_string. now destruct m.
    + cbn. split; [discriminate|]. split; [reflexivity | discriminate].
    + cbn. rewrite H. split; [|split; [now intros [] | discriminate]].
      intros _. now apply IHr.
    + cbn. rewrite H. split; [|split; [now intros [] | discriminate]].
      intros _. now apply IHr.
    + destruct u; cbn; rewrite H;
        (split; [|split; [now intros [] | discriminate]]);
        intros _; now apply IHr.
    + cbn. split; [discriminate|]. split; [reflexivity | discriminate].
    + cbn. split; [discriminate|]. split; [|discriminate].
      intros _. apply IHn. now rewrite H.
Qed.

Lemma run_reachable es s : run App.initial es s -> reachable s.
Proof.
  remember App.initial as s0 eqn:E0.
  induction 1 as [s|s es s1 e s2 Hrun IH Hstep].
  - subst. apply reach_initial.
  - eapply reach_step; [now apply IH | exact Hstep].
Qed.

Lemma sample_results_run :
  run App.initial
    [SelectFile sample_file; ClickAnalyze; AnalysisSettled sample_world]
    sample_results.
Proof.
  change [SelectFile sample_file; ClickAnalyze; AnalysisSettled sample_world]
    with ((([] ++ [SelectFile sample_file]) ++ [ClickAnalyze])
            ++ [AnalysisSettled sample_world]).
  eapply run_snoc; [eapply run_snoc; [eapply run_snoc; [apply run_nil|]|]|].
  - apply (step_select App.initial sample_file). reflexivity.
  - apply step_analyze. reflexivity.
  - apply (@step_settled sample_analyzing sample_world sample_file);
      reflexivity.
Qed.

(** The result on the results screen comes from the last analysis that
    settled, and was computed for the file selected now. *)
Lemma result_of_last_analysis es s :
  run App.initial es s ->
  appState s = RESULTS ->
  exists before w after f r,
    es = before ++ AnalysisSettled w :: after /\
    forallb on_results_screen after = true /\
    file s = Some f /\ analysisResult s = Some r /\
    snd (analyzeVideoWithGemini w f) = Returned r.
Proof.
  remember App.initial as s0 eqn:E0.
  induction 1 as [s|s es s1 e s2 Hrun IH Hstep]; [subst; discriminate|].
  specialize (IH E0). subst s.
  pose proof (run_reachable Hrun) as Hreach.
  assert (Hkeep : forall s',
            on_results_screen e = true ->
            appState s1 = RESULTS ->
            file s' = file s1 -> analysisResult s' = analysisResult s1 ->
            exists before w after f r,
              es ++ [e] = before ++ AnalysisSettled w :: after /\
              forallb on_results_screen after = true /\
              file s' = Some f /\ analysisResult s' = Some r /\
              snd (analyzeVideoWithGemini w f) = Returned r).
  { intros s' He Hres Hf Hr.
    destruct (IH Hres) as (before & w & after & f & r & -> & Hall & Hfile
                           & Hresult & Hanalysis).
    exists before, w, (after ++ [e]), f, r.
    split; [now rewrite <- app_assoc|].
    split; [rewrite forallb_app, Hall; cbn; now rewrite He|].
    split; [congruence|]. split; [congruence | exact Hanalysis]. }
  destruct Hstep as [s f H|s H|s H Hf|s w f H Hp|s H|s sec now H|s f H|s u H
                    |s H|s H].
  - rewrite validateAndSetFile_appState, H. discriminate.
  - unfold startAnalysis. destruct (file s); cbn; [|rewrite H]; discriminate.
  - discriminate.
  - destruct (analyzing_has_pending Hreach) as [Hpend _].
    destruct (Hpend H) as [Hfile _]. rewrite Hp in Hfile.
    unfold startAnalysis_resume.
    destruct (snd (analyzeVideoWithGemini w f)) as [r|m] eqn:E; cbn;
      [|discriminate].
    intros _. exists es, w, [], f, r. repeat split; auto.
  - discriminate.
  - intros _. now apply Hkeep.
  - intros _. now apply Hkeep.
  - intros _. apply Hkeep; auto; now destruct u.
  - discriminate.
  - discriminate.
Qed.

(** X17. After every run of the application, an analysis result is held
    exactly on the results screen. On that screen the run contains an
    analysis that settled, followed only by clicks on incidents, filter
    changes and calls of the player; the result held is what that analysis
    returned, and it was computed for the file that is selected now. The
    error screen always has a message to show. *)
Theorem screens_show_what_they_hold (es : list event) (s : Model) :
  run App.initial es s ->
  (analysisResult s <> None <-> appState s = RESULTS)
  /\ (appState s = RESULTS ->
      exists before w after f r,
        es = before ++ AnalysisSettled w :: after /\
        forallb on_results_screen after = true /\
        file s = Some f /\ analysisResult s = Some r /\
        snd (analyzeVideoWithGemini w f) = Returned r)
  /\ (appState s = ERROR -> errorMsg s <> "").
Proof.
  intros Hrun. pose proof (run_reachable Hrun) as Hs.
  destruct (screens_hold_content Hs) as (Hr & Hn & He).
  split; [|split].
  - split.
    + intros Hres. destruct (appState s) eqn:E; auto;
        elim Hres; apply Hn; discriminate.
    + intros E. destruct (Hr E) as (w & f & r & _ & -> & _). discriminate.
  - now apply result_of_last_analysis.
  - intros E Hempty. apply He in E. rewrite Hempty in E. discriminate.
Qed.

Lemma screens_show_what_they_hold_witness :
  exists before w after f r,
    [SelectFile sample_file; ClickAnalyze; AnalysisSettled sample_world]
      = before ++ AnalysisSettled w :: after /\
    forallb on_results_screen after = true /\
    file sample_results = Some f /\ analysisResult sample_results = Some r /\
    snd (analyzeVideoWithGemini w f) = Returned r.
Proof.
  destruct (@screens_show_what_they_hold _ sample_results sample_results_run)
    as (_ & H & _).
  apply H. reflexivity.
Defined.

(** X18. While an analysis is in flight nothing else can happen: the only
    step is the settling of that analysis, which is always possible and
    leaves the analyzing screen; so two analyses are never in flight
    together. *)
Theorem one_analysis_in_flight (s : Model) :
  reachable s ->
  appState s = ANALYZING ->
  (forall e s', step s e s' ->
     (exists w, e = AnalysisSettled w) /\ appState s' <> ANALYZING)
  /\ (exists f,
        file s = Some f /\ pending s = Some f /\
        forall w,
          step s (AnalysisSettled w)
            (startAnalysis_resume (snd (analyzeVideoWithGemini w f)) s)).
Proof.
  intros Hs Han. split.
  - intros e s' Hstep.
    destruct Hstep as [s f H|s H|s H Hf|s w f H Hp|s H|s sec now H|s f H|s u H
                      |s H|s H]; try congruence.
    split; [now exists w|].
    unfold startAnalysis_resume. destruct (snd _); cbn; discriminate.
  - destruct (analyzing_has_pending Hs) as [Hpend _].
    destruct (Hpend Han) as [Hp Hf].
    destruct (file s) as [f|] eqn:E; [|now elim Hf].
    exists f. repeat split; auto. intros w. now apply step_settled.
Qed.

Lemma one_analysis_in_flight_witness :
  exists f, file sample_analyzing = Some f /\ pending sample_analyzing = Some f.
Proof.
  destruct (@one_analysis_in_flight sample_analyzing
              sample_analyzing_reachable eq_refl) as (_ & f & Hf & Hp & _).
  now exists f.
Defined.

(** X19. On the error screen the two buttons differ in what they keep.
    After "Try Again" (the full reset) no file is selected and pressing
    "Analyze" does nothing. After "Go Back" the file and the error message
    are kept, and pressing "Analyze" sends the same file again. *)
Theorem retry_keeps_the_file_reset_does_not (s : Model) :
  reachable s ->
  appState s = ERROR ->
  startAnalysis (handleReset s) = handleReset s
  /\ file (goBack s) = file s
  /\ errorMsg (goBack s) = errorMsg s
  /\ appState (goBack s) = UPLOAD
  /\ exists f,
       file s = Some f /\
       appState (startAnalysis (goBack s)) = ANALYZING /\
       pending (startAnalysis (goBack s)) = Some f.
Proof.
  intros Hs Herr.
  destruct (preview_url_is_held Hs) as [Hfile _].
  assert (Hf : file s <> None) by (apply Hfile; rewrite Herr; discriminate).
  split; [reflexivity|]. split; [reflexivity|]. split; [reflexivity|].
  split; [reflexivity|].
  destruct (file s) as [f|] eqn:E; [|now elim Hf].
  exists f. split; [reflexivity|].
  unfold startAnalysis, goBack. cbn. rewrite E. split; reflexivity.
Qed.

Lemma retry_keeps_the_file_reset_does_not_witness :
  startAnalysis (handleReset sample_error) = handleReset sample_error /\
  file (goBack sample_error) = file sample_error.
Proof.
  destruct (@retry_keeps_the_file_reset_does_not sample_error
              sample_error_reachable eq_refl) as (H1 & H2 & _).
  split; [exact H1 | exact H2].
Defined.

(* ----------------------------------------------------------------- *)
(** ** The application: between the two size limits *)

(** X20. A video larger than 50 MB and at most 75 MB is accepted by file
    selection and refused by the analysis: whatever the service would
    answer, selecting it and pressing "Analyze" ends on the error screen
    with the 50 MB message, and neither the file is read nor the service
    called. *)
Theorem between_the_limits_always_fails
    (w : World) (f : File) (s : Model) :
  truthy_string (API_KEY w) = true ->
  startsWith (file_type f) "video/" = true ->
  (50 * 1024 * 1024 < file_size f)%Z ->
  (file_size f <= 75 * 1024 * 1024)%Z ->
  appState s = UPLOAD ->
  let s1 := validateAndSetFile f s in
  let s2 := startAnalysis s1 in
  let s3 := startAnalysis_resume (snd (analyzeVideoWithGemini w f)) s2 in
  step s (SelectFile f) s1 /\ step s1 ClickAnalyze s2
  /\ step s2 (AnalysisSettled w) s3
  /\ file s1 = Some f
  /\ fst (analyzeVideoWithGemini w f) = []
  /\ appState s3 = ERROR
  /\ errorMsg s3 = "File size exceeds 50MB limit. Please use a smaller video.".
Proof.
  intros Hkey Htype Hbig Hfit Hup s1 s2 s3.
  assert (E1 : s1 = setErrorMsg ""
            (setVideoUrl (fst (createObjectURL (setFile (Some f) s)))
               (snd (createObjectURL (setFile (Some f) s))))).
  { unfold s1, validateAndSetFile, App.maxSize. rewrite Htype. cbn [negb].
    now rewrite gtb_false. }
  assert (Ea : analyzeVideoWithGemini w f =
            ([],
             Threw "File size exceeds 50MB limit. Please use a smaller video.")).
  { unfold analyzeVideoWithGemini, GeminiService.maxSize.
    rewrite Hkey, Htype. cbn [negb]. rewrite gtb_true by lia. reflexivity. }
  assert (E2 : s2 = set_pending (Some f) (setAppState ANALYZING s1)).
  { unfold s2, startAnalysis. now rewrite E1. }
  split; [now apply step_select|].
  split; [apply step_analyze; unfold s1;
          now rewrite validateAndSetFile_appState|].
  split; [apply step_settled; rewrite E2; reflexivity|].
  split; [now rewrite E1|].
  split; [now rewrite Ea|].
  unfold s3. rewrite Ea. split; reflexivity.
Qed.

Lemma between_the_limits_always_fails_witness :
  appState sample_error = ERROR /\
  errorMsg sample_error =
    "File size exceeds 50MB limit. Please use a smaller video.".
Proof.
  destruct (@between_the_limits_always_fails sample_world sixty_megabytes
              App.initial eq_refl eq_refl) as (_ & _ & _ & _ & _ & H1 & H2).
  - vm_compute; reflexivity.
  - vm_compute; discriminate.
  - reflexivity.
  - split; [exact H1 | exact H2].
Defined.

(* ----------------------------------------------------------------- *)
(** ** The application and the player: seek requests *)

Lemma no_request_outside_results s :
  reachable s -> appState s <> RESULTS -> seekToRequest s = None.
Proof.
  induction 1 as [|s e s' Hs IH Hstep]; [reflexivity|].
  destruct Hstep as [s f H|s H|s H Hf|s w f H Hp|s H|s sec now H|s f H|s u H
                    |s H|s H].
  - rewrite validateAndSetFile_appState.
    destruct (validateAndSetFile_keeps f s) as (_ & -> & _). exact IH.
  - intros _. unfold startAnalysis. destruct (file s); cbn;
      apply IH; rewrite H; discriminate.
  - reflexivity.
  - intros _. unfold startAnalysis_resume. destruct (snd _); cbn;
      apply IH; rewrite H; discriminate.
  - reflexivity.
  - cbn. rewrite H. now intros [].
  - cbn. rewrite H. now intros [].
  - destruct u; cbn; rewrite H; now intros [].
  - reflexivity.
  - intros _. cbn. apply IH. rewrite H. discriminate.
Qed.

(** X21. A seek request exists only on the results screen. So whenever
    the application enters the results screen, the player is mounted
    without a request: it attaches a fresh element and starts neither a
    seek nor playback. No request of an earlier analysis is carried over. *)
Theorem results_screen_opens_without_request
    (s s' : Model) (e : event) (allowed : bool) :
  reachable s ->
  step s e s' ->
  appState s <> RESULTS ->
  appState s' = RESULTS ->
  seekToRequest s' = None
  /\ commit allowed (seekToRequest s') VideoPlayer.initial =
     mkPlayer (Some fresh_element) false false (Num 0) false (Some None).
Proof.
  intros Hs Hstep Hbefore Hafter.
  assert (E : seekToRequest s' = None).
  { pose proof (no_request_outside_results Hs Hbefore) as Hnone.
    destruct Hstep as [s f H|s H|s H Hf|s w f H Hp|s H|s sec now H|s f H|s u H
                      |s H|s H]; try (now elim Hbefore); try discriminate.
    - now destruct (validateAndSetFile_keeps f s) as (_ & -> & _).
    - unfold startAnalysis. now destruct (file s).
    - unfold startAnalysis_resume. now destruct (snd _). }
  split; [exact E|]. now rewrite E.
Qed.

Lemma results_screen_opens_without_request_witness :
  seekToRequest sample_results = None.
Proof.
  apply (@results_screen_opens_without_request sample_analyzing
           sample_results (AnalysisSettled sample_world) true
           sample_analyzing_reachable).
  - apply (@step_settled sample_analyzing sample_world sample_file);
      reflexivity.
  - discriminate.
  - reflexivity.
Defined.

(** X22. Every click on an incident row makes the player seek, also a
    second click on the same row: for a player that has committed the
    current request of a reachable state, the commit that follows a click
    moves the element to the clicked second (as the element clamps it),
    shows the playing state, and leaves the element playing whenever the
    platform lets it play. *)
Theorem every_click_seeks
    (s : Model) (p : Player) (el : MediaElement)
    (seconds now : Z) (allowed : bool) :
  reachable s ->
  videoRef p = Some el ->
  committed_seekTo p = Some (seekToRequest s) ->
  let p' := commit allowed (seekToRequest (onIncidentClick seconds now s)) p in
  exists el',
    videoRef p' = Some el' /\
    el_currentTime el' =
      el_currentTime (set_currentTime (inject_Z seconds) el) /\
    isPlaying p' = true /\
    (allowed = true -> el_paused el' = false) /\
    (el_paused el = false -> el_paused el' = false).
Proof.
  intros Hs Hv Hc p'.
  pose proof (click_is_always_due seconds now Hs) as Hdue.
  unfold p', commit, effect_due. rewrite Hv, Hc, Hdue. cbn [negb].
  cbn [onIncidentClick new_object seekToRequest setSeekToRequest].
  unfold seekTo_effect. rewrite Hv. cbn [seek_time].
  rewrite set_currentTime_paused.
  destruct (el_paused el) eqn:Hp; cbn.
  - eexists. split; [reflexivity|]. unfold play.
    destruct allowed; cbn; repeat split; auto;
      try discriminate; now rewrite set_currentTime_paused.
  - eexists. split; [reflexivity|].
    repeat split; auto; now rewrite set_currentTime_paused.
Qed.

Lemma every_click_seeks_witness :
  exists el',
    videoRef (commit true
                (seekToRequest (onIncidentClick 5 1000 sample_results))
                (commit true None player_at_10)) = Some el' /\
    el_currentTime el' = inject_Z 5.
Proof.
  destruct (@every_click_seeks sample_results (commit true None player_at_10)
              (mkMedia (clamp 100 10) (Num 100) true false) 5 1000 true
              sample_results_reachable eq_refl eq_refl)
    as (el' & Hv & Ht & _).
  exists el'. split; [exact Hv | exact Ht].
Defined.

(* ----------------------------------------------------------------- *)
(** ** The application: object URLs *)



(* ----------------------------------------------------------------- *)
(** ** The table and the player together *)

(** X24. Once the player has handled the metadata event of a video of
    positive duration, the slider ranges over the video: its maximum is the
    duration. Moving it to a value of its range then puts the element
    exactly there, the application is told that value at once, and the
    next time-update event reports the same position again. *)
Theorem scrub_moves_element_to_slider_value
    (p : Player) (el : MediaElement) (dur time : Q) (s : Model) :
  videoRef p = Some el ->
  el_duration el = Num dur ->
  duration p = Num dur ->
  (0 < dur)%Q ->
  (0 <= time)%Q -> (time <= range_max (duration p))%Q ->
  let scrubbed := handleSeek time p in
  let updated := handleTimeUpdate (fst scrubbed) in
  range_max (duration p) = dur
  /\ currentVideoTime (fold_left (fun m u => deliver u m) (snd scrubbed) s)
     = time
  /\ (exists t,
        position (fst scrubbed) = Some t /\ (t == time)%Q /\
        currentVideoTime
          (fold_left (fun m u => deliver u m)
             (snd scrubbed ++ snd updated) s) = t).
Proof.
  intros Hv Hd Hstate Hpos H0 Hmax.
  assert (Hrange : range_max (duration p) = dur).
  { rewrite Hstate. unfold range_max.
    now rewrite (Qeq_bool_false_of_pos Hpos). }
  rewrite Hrange in Hmax. cbv zeta.
  unfold handleSeek, handleTimeUpdate, position.
  rewrite Hv. cbn. unfold set_currentTime. rewrite Hd. cbn.
  split; [exact Hrange|]. split; [reflexivity|].
  eexists. split; [reflexivity|]. split; [|reflexivity].
  now apply clamp_inside.
Qed.

Lemma scrub_moves_element_to_slider_value_witness :
  exists t,
    position (fst (handleSeek 50 player_ready)) = Some t /\ (t == 50)%Q.
Proof.
  destruct (@scrub_moves_element_to_slider_value player_ready
              (mkMedia 0 (Num 100) true false) 100 50 sample_results
              eq_refl eq_refl eq_refl) as (_ & _ & t & Ht & Heq & _).
  - reflexivity.
  - vm_compute; discriminate.
  - vm_compute; discriminate.
  - exists t. split; [exact Ht | exact Heq].
Defined.

Lemma near_integer_seconds a b :
  near (inject_Z (seconds a)) b = true <->
  (Z.abs (seconds a - seconds b) < 3)%Z.
Proof.
  rewrite near_within. unfold within_window, Qabs, Qlt, Qminus, Qplus,
    Qopp, inject_Z. cbn [Qnum Qden]. cbn. lia.
Qed.

(** X25. When the playback position is the second mark of an incident of
    the list, some incident is active, and it lies less than three seconds
    from that mark; it is that incident itself when no incident listed
    before it lies that close, and otherwise it is an earlier-listed one. *)
Theorem active_at_an_incident_second
    (incidents : list Incident) (inc : Incident) :
  In inc incidents ->
  exists a,
    activeIncident incidents (inject_Z (seconds inc)) = Some a /\
    In a incidents /\
    (Z.abs (seconds inc - seconds a) < 3)%Z /\
    (forall before after,
       incidents = before ++ inc :: after ->
       (forall x, In x before -> (3 <= Z.abs (seconds inc - seconds x))%Z) ->
       a = inc).
Proof.
  intros Hin. unfold activeIncident.
  destruct (find (near (inject_Z (seconds inc))) incidents) as [a|] eqn:E.
  - exists a. apply find_some in E as Hfound. destruct Hfound as [Ha Hnear].
    split; [reflexivity|]. split; [exact Ha|].
    split; [now apply near_integer_seconds|].
    intros before after Hsplit Hfar.
    assert (Hinc : find (near (inject_Z (seconds inc))) incidents = Some inc).
    { apply find_first. exists before, after. split; [exact Hsplit|]. split.
      - apply near_integer_seconds. rewrite Z.sub_diag. reflexivity.
      - intros x Hx. destruct (near (inject_Z (seconds inc)) x) eqn:Hn; auto.
        apply near_integer_seconds in Hn. specialize (Hfar x Hx). lia. }
    congruence.
  - exfalso. apply (find_none _ _ E) in Hin.
    assert (near (inject_Z (seconds inc)) inc = true)
      by (apply near_integer_seconds; rewrite Z.sub_diag; reflexivity).
    congruence.
Qed.

Lemma active_at_an_incident_second_witness :
  exists a,
    activeIncident
      [mkIncident "inc-0-7" "00:29" 29 LOW "a";
       mkIncident "inc-1-7" "00:30" 30 HIGH "b"] (inject_Z 30) = Some a /\
    (Z.abs (30 - seconds a) < 3)%Z.
Proof.
  destruct (@active_at_an_incident_second
              [mkIncident "inc-0-7" "00:29" 29 LOW "a";
               mkIncident "inc-1-7" "00:30" 30 HIGH "b"]
              (mkIncident "inc-1-7" "00:30" 30 HIGH "b"))
    as (a & Ha & _ & Hd & _).
  - right. now left.
  - exists a. split; [exact Ha | exact Hd].
Defined.
